(** * memo8-cli: the codebase indexing command and the API client

    A shallow embedding of [src/commands/codebase.ts] (directory walk,
    admission filter, batch construction, upload loop), [src/lib/api.ts]
    (the axios response interceptor) and [src/lib/config.ts] (the global
    configuration file), followed by the properties the specification states
    about them.

    Conventions.  Bytes, UTF-16 code units, 32-bit words and sizes are
    numbers in [N]; a JavaScript string is the list of its UTF-16 code units
    (so [length] is the [.length] of the source); a [Buffer] is the list of
    its bytes.  A call that may throw returns a [result]. *)

From Stdlib Require Import String Ascii DecimalString List Arith NArith Lia Bool.
Import ListNotations.
Local Open Scope N_scope.

(* ================================================================== *)
(** * Part I.  The embedding                                           *)
(* ================================================================== *)

(** ** Exceptions *)

Inductive result (E A : Type) : Type :=
| Ok (a : A)
| Throw (e : E).
Arguments Ok {E A} a.
Arguments Throw {E A} e.

Definition bind {E A B} (r : result E A) (k : A -> result E B) : result E B :=
  match r with
  | Ok a => k a
  | Throw e => Throw e
  end.

Declare Scope result_scope.
Delimit Scope result_scope with result.
Notation "'try!' x <- r ; k" := (bind r (fun x => k))
  (at level 10, x name, r at level 100, k at level 200) : result_scope.
Local Open Scope result_scope.

(** ** JavaScript strings and buffers *)

Module Js.

Definition codeunit := N.
Definition jsstring := list codeunit.
Definition byte := N.
Definition Buffer := list byte.

(** An ASCII literal as a JavaScript string. *)
Fixpoint lit (s : string) : jsstring :=
  match s with
  | EmptyString => []
  | String c s' => N_of_ascii c :: lit s'
  end.

Definition is_high_surrogate (c : codeunit) : bool :=
  (0xD800 <=? c) && (c <=? 0xDBFF).
Definition is_low_surrogate (c : codeunit) : bool :=
  (0xDC00 <=? c) && (c <=? 0xDFFF).

(** The UTF-8 bytes of one code point. *)
Definition utf8_of_codepoint (cp : N) : Buffer :=
  if cp <? 0x80 then [cp]
  else if cp <? 0x800 then
    [N.lor 0xC0 (N.shiftr cp 6); N.lor 0x80 (N.land cp 0x3F)]
  else if cp <? 0x10000 then
    [N.lor 0xE0 (N.shiftr cp 12);
     N.lor 0x80 (N.land (N.shiftr cp 6) 0x3F);
     N.lor 0x80 (N.land cp 0x3F)]
  else
    [N.lor 0xF0 (N.shiftr cp 18);
     N.lor 0x80 (N.land (N.shiftr cp 12) 0x3F);
     N.lor 0x80 (N.land (N.shiftr cp 6) 0x3F);
     N.lor 0x80 (N.land cp 0x3F)].

(** [Buffer.from(s, 'utf-8')]: a surrogate pair is one code point, a lone
    surrogate is written as U+FFFD. *)
Fixpoint utf8_encode (s : jsstring) : Buffer :=
  match s with
  | [] => []
  | c :: rest =>
      if is_high_surrogate c then
        match rest with
        | d :: rest' =>
            if is_low_surrogate d then
              utf8_of_codepoint
                (0x10000 + N.shiftl (c - 0xD800) 10 + (d - 0xDC00))
                ++ utf8_encode rest'
            else utf8_of_codepoint 0xFFFD ++ utf8_encode rest
        | [] => utf8_of_codepoint 0xFFFD
        end
      else if is_low_surrogate c then
        utf8_of_codepoint 0xFFFD ++ utf8_encode rest
      else utf8_of_codepoint c ++ utf8_encode rest
  end.

(** [Buffer.byteLength(s, 'utf-8')]. *)
Definition byteLength (s : jsstring) : N :=
  N.of_nat (List.length (utf8_encode s)).

(** *** [buf.toString('utf-8')]

    The decoder replaces every maximal ill-formed subsequence by U+FFFD
    (the WHATWG UTF-8 decoder, which Node follows).  [Pending] is a
    sequence under way: the bits read so far, the continuation bytes still
    expected, and the range allowed for the next one. *)
Record Pending : Type := mkPending {
  cp_acc : N;
  needed : N;
  lower : byte;
  upper : byte
}.

Definition decode_start (b : byte) : option Pending * list N :=
  if b <=? 0x7F then (None, [b])
  else if (0xC2 <=? b) && (b <=? 0xDF) then
    (Some (mkPending (N.land b 0x1F) 1 0x80 0xBF), [])
  else if (0xE0 <=? b) && (b <=? 0xEF) then
    (Some (mkPending (N.land b 0xF) 2
             (if b =? 0xE0 then 0xA0 else 0x80)
             (if b =? 0xED then 0x9F else 0xBF)), [])
  else if (0xF0 <=? b) && (b <=? 0xF4) then
    (Some (mkPending (N.land b 0x7) 3
             (if b =? 0xF0 then 0x90 else 0x80)
             (if b =? 0xF4 then 0x8F else 0xBF)), [])
  else (None, [0xFFFD]).

Definition decode_step (st : option Pending) (b : byte)
  : option Pending * list N :=
  match st with
  | None => decode_start b
  | Some p =>
      if (lower p <=? b) && (b <=? upper p) then
        let cp := N.lor (N.shiftl (cp_acc p) 6) (N.land b 0x3F) in
        if needed p =? 1 then (None, [cp])
        else (Some (mkPending cp (needed p - 1) 0x80 0xBF), [])
      else
        let '(st', out) := decode_start b in (st', 0xFFFD :: out)
  end.

Fixpoint decode_from (st : option Pending) (buf : Buffer) : list N :=
  match buf with
  | [] => match st with None => [] | Some _ => [0xFFFD] end
  | b :: rest =>
      let '(st', out) := decode_step st b in out ++ decode_from st' rest
  end.

Definition utf16_of_codepoint (cp : N) : jsstring :=
  if cp <? 0x10000 then [cp]
  else [0xD800 + N.shiftr (cp - 0x10000) 10;
        0xDC00 + N.land (cp - 0x10000) 0x3FF].

Definition toString_utf8 (buf : Buffer) : jsstring :=
  flat_map utf16_of_codepoint (decode_from None buf).

(** *** [buf.subarray(0, n).includes(v)] *)
Definition subarray0 (n : N) (buf : Buffer) : Buffer :=
  firstn (N.to_nat n) buf.
Definition includes (v : byte) (buf : Buffer) : bool :=
  existsb (N.eqb v) buf.

(** *** [s.trim()]: ECMAScript WhiteSpace and LineTerminator code points. *)
Definition is_whitespace (c : codeunit) : bool :=
  ((0x09 <=? c) && (c <=? 0x0D))
  || (c =? 0x20) || (c =? 0xA0) || (c =? 0x1680)
  || ((0x2000 <=? c) && (c <=? 0x200A))
  || (c =? 0x2028) || (c =? 0x2029) || (c =? 0x202F)
  || (c =? 0x205F) || (c =? 0x3000) || (c =? 0xFEFF).

Fixpoint trimStart (s : jsstring) : jsstring :=
  match s with
  | [] => []
  | c :: rest => if is_whitespace c then trimStart rest else s
  end.
Definition trimEnd (s : jsstring) : jsstring := rev (trimStart (rev s)).
Definition trim (s : jsstring) : jsstring := trimEnd (trimStart s).

(** Truthiness of a string: [!s] holds of the empty string only. *)
Definition falsy (s : jsstring) : bool :=
  match s with [] => true | _ :: _ => false end.

(** [s.length] of a string, [a.length] of an array. *)
Definition strlen (s : jsstring) : N := N.of_nat (List.length s).
Definition len {A} (a : list A) : N := N.of_nat (List.length a).

End Js.
Import Js.

(** ** SHA-256 (FIPS 180-4), as [crypto.createHash('sha256')] computes it *)

Module Sha256.

Definition mask32 : N := 0xFFFFFFFF.
Definition add32 (a b : N) : N := N.land (a + b) mask32.
Definition rotr (n x : N) : N :=
  N.lor (N.shiftr x n) (N.land (N.shiftl x (32 - n)) mask32).
Definition not32 (x : N) : N := N.lxor x mask32.
Definition xor3 (x y z : N) : N := N.lxor (N.lxor x y) z.

Definition Ch (x y z : N) : N := N.lxor (N.land x y) (N.land (not32 x) z).
Definition Maj (x y z : N) : N :=
  xor3 (N.land x y) (N.land x z) (N.land y z).
Definition bsig0 (x : N) : N := xor3 (rotr 2 x) (rotr 13 x) (rotr 22 x).
Definition bsig1 (x : N) : N := xor3 (rotr 6 x) (rotr 11 x) (rotr 25 x).
Definition ssig0 (x : N) : N := xor3 (rotr 7 x) (rotr 18 x) (N.shiftr x 3).
Definition ssig1 (x : N) : N := xor3 (rotr 17 x) (rotr 19 x) (N.shiftr x 10).

(** The constants are the first thirty-two bits of the fractional parts of
    the cube roots (for [K]) and of the square roots (for [H0]) of the first
    sixty-four and the first eight prime numbers. *)
Definition is_prime (n : N) : bool :=
  forallb (fun d => negb (n mod N.of_nat d =? 0)) (seq 2 (N.to_nat n - 2)).

Definition primes : list N :=
  filter is_prime (map N.of_nat (seq 2 310)).

(** The integer cube root, one bit at a time from bit 35 down. *)
Definition cube_root (n : N) : N :=
  fold_left
    (fun r b =>
       let r' := r + N.shiftl 1 (N.of_nat b) in
       if r' * r' * r' <=? n then r' else r)
    (rev (seq 0 36)) 0.

Definition K : list N :=
  Eval vm_compute in
    map (fun p => N.land (cube_root (N.shiftl p 96)) mask32) primes.

Definition H0 : list N :=
  Eval vm_compute in
    map (fun p => N.land (N.sqrt (N.shiftl p 64)) mask32) (firstn 8 primes).

(** Big-endian bytes of a number, [n] bytes wide. *)
Definition be_bytes (n : nat) (x : N) : list N :=
  map (fun i => N.land (N.shiftr x (8 * N.of_nat i)) 0xFF) (rev (seq 0 n)).

Definition pad (msg : list N) : list N :=
  let l := N.of_nat (List.length msg) in
  msg ++ [0x80]
      ++ repeat 0 (N.to_nat ((119 - l mod 64) mod 64))
      ++ be_bytes 8 (8 * l).

Fixpoint words_of_bytes (bs : list N) : list N :=
  match bs with
  | b0 :: b1 :: b2 :: b3 :: rest =>
      (N.shiftl b0 24 + N.shiftl b1 16 + N.shiftl b2 8 + b3)
        :: words_of_bytes rest
  | _ => []
  end.

(** The message schedule W_0 .. W_63 of one block of sixteen words. *)
Definition schedule (block : list N) : list N :=
  fold_left
    (fun W t =>
       W ++ [add32 (add32 (ssig1 (nth (t - 2) W 0)) (nth (t - 7) W 0))
                   (add32 (ssig0 (nth (t - 15) W 0)) (nth (t - 16) W 0))])
    (seq 16 48) block.

Definition round (v : list N) (kw : N * N) : list N :=
  match v with
  | [a; b; c; d; e; f; g; h] =>
      let T1 := add32 (add32 (add32 h (bsig1 e)) (Ch e f g))
                      (add32 (fst kw) (snd kw)) in
      let T2 := add32 (bsig0 a) (Maj a b c) in
      [add32 T1 T2; a; b; c; add32 d T1; e; f; g]
  | _ => v
  end.

Definition compress (H block : list N) : list N :=
  let v := fold_left round (combine K (schedule block)) H in
  map (fun p => add32 (fst p) (snd p)) (combine H v).

(** Words are gathered sixteen at a time; each full block is compressed. *)
Definition absorb (st : list N * list N) (w : N) : list N * list N :=
  let '(H, cur) := st in
  let cur' := cur ++ [w] in
  if Nat.eqb (List.length cur') 16 then (compress H cur', []) else (H, cur').

Definition sha256 (msg : list N) : list N :=
  let '(H, _) := fold_left absorb (words_of_bytes (pad msg)) (H0, []) in
  flat_map (be_bytes 4) H.

(** [digest('hex')]: two lower-case hexadecimal digits per byte. *)
Definition hex_digit (d : N) : N := if d <? 10 then 48 + d else 87 + d.
Definition hex (bs : list N) : list N :=
  flat_map (fun b => [hex_digit (N.shiftr b 4); hex_digit (N.land b 0xF)]) bs.

End Sha256.

(** [crypto.createHash('sha256').update(content).digest('hex')]: a string
    given to [update] is hashed as its UTF-8 bytes. *)
Definition sha256_hex (content : jsstring) : jsstring :=
  Sha256.hex (Sha256.sha256 (utf8_encode content)).

(** ** Constants ([codebase.ts], lines 30-31) *)

Definition MAX_BATCH_BYTES : N := 4 * 1024 * 1024.   (* 4MB per batch payload *)
Definition MAX_FILE_SIZE : N := 512 * 1024.          (* 512KB *)

(** ** Thrown values

    What a [catch] clause of the program can receive.  The response bodies
    the client inspects are JSON objects of which only [message] and
    [errors] are read. *)

Record RespData : Type := mkRespData {
  d_message : option string;
  d_errors : option (list (string * list string))
}.

(** A rejected axios request.  Either no response arrived (connection
    refused, DNS failure, timeout, ...: [error.response] is undefined and
    [error.code] names the cause), or a response arrived whose status
    axios does not accept; axios then sets [error.code] to ERR_BAD_REQUEST
    for 4xx and ERR_BAD_RESPONSE for 5xx. *)
Inductive AxiosFailure : Type :=
| NoResponse (code : option string) (message : string)
| BadStatus (status : N) (data : option RespData) (message : string).

Definition error_code (error : AxiosFailure) : option string :=
  match error with
  | NoResponse code _ => code
  | BadStatus status _ _ =>
      if status / 100 =? 4 then Some "ERR_BAD_REQUEST"%string
      else if status / 100 =? 5 then Some "ERR_BAD_RESPONSE"%string
      else None
  end.

(** [error.response?.status], [error.response?.data], [error.message]. *)
Definition error_response_status (error : AxiosFailure) : option N :=
  match error with
  | NoResponse _ _ => None
  | BadStatus status _ _ => Some status
  end.
Definition error_response_data (error : AxiosFailure) : option RespData :=
  match error with
  | NoResponse _ _ => None
  | BadStatus _ data _ => data
  end.
Definition error_message (error : AxiosFailure) : string :=
  match error with
  | NoResponse _ message => message
  | BadStatus _ _ message => message
  end.

(** [SystemError]: what [fs] throws.  [RawAxiosError]: a rejection as axios
    itself delivers it, with its [response] property.  [ApiError] and
    [ValidationError]: the classes of [api.ts]; they have [status] and
    [data] (and [errors]), and no [response]. *)
Inductive JsError : Type :=
| SystemError (code : string) (message : string)
| RawAxiosError (error : AxiosFailure)
| ApiError (message : string) (status : N) (data : option RespData)
| ValidationError (message : string) (errors : list (string * list string)).

(** [err.message]. *)
Definition message_of (err : JsError) : string :=
  match err with
  | SystemError _ m => m
  | RawAxiosError error => error_message error
  | ApiError m _ _ => m
  | ValidationError m _ => m
  end.

(** [(err as { response?: { status?: number } })?.response?.status]. *)
Definition response_status_of (err : JsError) : option N :=
  match err with
  | RawAxiosError error => error_response_status error
  | SystemError _ _ | ApiError _ _ _ | ValidationError _ _ => None
  end.

(** ** Paths

    A normalised absolute POSIX path is the list of its components; a
    directory entry name is one component. *)

Module Path.

Definition Path := list jsstring.

Definition component_eq_dec : forall a b : jsstring, {a = b} + {a <> b} :=
  list_eq_dec N.eq_dec.

(** [path.join(dir, name)]. *)
Definition join (dir : Path) (name : jsstring) : Path := dir ++ [name].

(** Components written with ['/'] between them. *)
Fixpoint render (segs : list jsstring) : jsstring :=
  match segs with
  | [] => []
  | [s] => s
  | s :: rest => s ++ lit "/" ++ render rest
  end.

(** [path.relative(from, to)]: drop the common prefix, climb out of what
    is left of [from], descend along what is left of [to]. *)
Fixpoint relative_components (from to : Path) : list jsstring :=
  match from, to with
  | f :: from', t :: to' =>
      if component_eq_dec f t then relative_components from' to'
      else repeat (lit "..") (List.length from) ++ to
  | _, _ => repeat (lit "..") (List.length from) ++ to
  end.

Definition relative (from to : Path) : jsstring :=
  render (relative_components from to).

End Path.
Import Path.

(** ** The file system

    What [fs.readdirSync(dir, { withFileTypes: true })], [fs.statSync] and
    [fs.readFileSync] return for the tree below the working directory.  A
    regular file answers [statSync] with its size and [readFileSync] with
    its bytes; a directory answers [readdirSync] with its entries in
    listing order; each call may throw instead.  [Other] is an entry that
    is neither [isDirectory()] nor [isFile()] (a symbolic link, a socket,
    ...). *)

#[local] Set Warnings "-register-all".
Inductive node : Type :=
| File (stat_size : result JsError N) (data : result JsError Buffer)
| Dir (listing : result JsError (list (jsstring * node)))
| Other.

Definition Dirents := list (jsstring * node).

(** The [ignore] instance: only [ig.ignores(path)] is used. *)
Record Ignore : Type := mkIgnore {
  ignores : jsstring -> bool
}.

Definition ENOTDIR : JsError :=
  SystemError "ENOTDIR" "ENOTDIR: not a directory, scandir".
Definition ENOENT : JsError :=
  SystemError "ENOENT" "ENOENT: no such file or directory".
Definition EISDIR : JsError :=
  SystemError "EISDIR" "EISDIR: illegal operation on a directory, read".
Definition EACCES : JsError :=
  SystemError "EACCES" "EACCES: permission denied".

(** ** The directory walk ([codebase.ts], lines 94-120) *)

(** The body of [for (const entry of entries)], given the function to call
    on a subdirectory.  [files] is returned once the loop is over; a throw
    leaves the function at once. *)
Definition walkLoop (walk : Path -> node -> result JsError (list Path))
    (ig : Ignore) (baseDir dir : Path)
  : Dirents -> result JsError (list Path) :=
  fix loop (entries : Dirents) : result JsError (list Path) :=
    match entries with
    | [] => Ok []
    | (name, entry) :: rest =>
        let fullPath := join dir name in
        let relativePath := relative baseDir fullPath in
        if ignores ig relativePath then loop rest
        else
          match entry with
          | Dir _ =>
              if negb (ignores ig (relativePath ++ lit "/")) then
                try! sub <- walk fullPath entry;
                try! more <- loop rest;
                Ok (sub ++ more)
              else loop rest
          | File stat_size _ =>
              try! size <- stat_size;
              try! more <- loop rest;
              Ok (if size <=? MAX_FILE_SIZE then fullPath :: more else more)
          | Other => loop rest
          end
    end.

(** [walkDirectory(dir, ig, baseDir)], where [d] is what is found at [dir]. *)
Fixpoint walkDirectory (ig : Ignore) (baseDir : Path) (dir : Path) (d : node)
  {struct d} : result JsError (list Path) :=
  match d with
  | Dir (Ok entries) =>
      walkLoop (walkDirectory ig baseDir) ig baseDir dir entries
  | Dir (Throw e) => Throw e
  | File _ _ | Other => Throw ENOTDIR
  end.

(** ** The tree walk of the bootstrap command ([bootstrap.js],
    [walkDirectoryForTree]): the same traversal with a depth limit, which
    lists relative paths and guards [readdirSync] with [try]/[catch]. *)

Definition walkTreeLoop (walk : Path -> node -> list jsstring)
    (ig : Ignore) (baseDir dir : Path) : Dirents -> list jsstring :=
  fix loop (entries : Dirents) : list jsstring :=
    match entries with
    | [] => []
    | (name, entry) :: rest =>
        let fullPath := join dir name in
        let relativePath := relative baseDir fullPath in
        if ignores ig relativePath then loop rest
        else
          match entry with
          | Dir _ =>
              if negb (ignores ig (relativePath ++ lit "/")) then
                (relativePath ++ lit "/") :: walk fullPath entry ++ loop rest
              else loop rest
          | File _ _ => relativePath :: loop rest
          | Other => loop rest
          end
    end.

Fixpoint walkDirectoryForTree (ig : Ignore) (baseDir : Path)
    (depth maxDepth : N) (dir : Path) (d : node) {struct d} : list jsstring :=
  if maxDepth <? depth then []
  else
    match d with
    | Dir (Ok entries) =>
        walkTreeLoop (walkDirectoryForTree ig baseDir (depth + 1) maxDepth)
                     ig baseDir dir entries
    | Dir (Throw _) | File _ _ | Other => []
    end.

(** ** Reading files *)

Record FileSystem : Type := mkFileSystem {
  cwd : Path;       (* [process.cwd()] *)
  root : node       (* what is found there *)
}.

Fixpoint strip_prefix (base p : Path) : option (list jsstring) :=
  match base, p with
  | [], _ => Some p
  | b :: base', c :: p' =>
      if component_eq_dec b c then strip_prefix base' p' else None
  | _ :: _, [] => None
  end.

(** The node reached from [d] along the components [segs]. *)
Fixpoint lookup (d : node) (segs : list jsstring) : option node :=
  match segs with
  | [] => Some d
  | s :: segs' =>
      match d with
      | Dir (Ok entries) =>
          (fix find (es : Dirents) : option node :=
             match es with
             | [] => None
             | (name, n) :: rest =>
                 if component_eq_dec name s then lookup n segs' else find rest
             end) entries
      | _ => None
      end
  end.

Definition resolve (fs : FileSystem) (p : Path) : option node :=
  match strip_prefix (cwd fs) p with
  | Some segs => lookup (root fs) segs
  | None => None
  end.

(** [fs.readFileSync(filePath)]. *)
Definition readFileSync (fs : FileSystem) (filePath : Path)
  : result JsError Buffer :=
  match resolve fs filePath with
  | Some (File _ data) => data
  | Some (Dir _) => Throw EISDIR
  | Some Other | None => Throw ENOENT
  end.

(** [fs.existsSync(p)]. *)
Definition existsSync (fs : FileSystem) (p : Path) : bool :=
  match resolve fs p with Some _ => true | None => false end.

(** [fs.readFileSync(p, 'utf-8')]. *)
Definition readFileSync_utf8 (fs : FileSystem) (p : Path)
  : result JsError jsstring :=
  try! buf <- readFileSync fs p; Ok (toString_utf8 buf).

(** ** The ignore rules ([codebase.ts], lines 33-92)

    The [ignore] package: [ignore()] makes an empty rule set, [add] appends
    the patterns of a string, and the finished set answers [ignores]. *)

Record IgnorePackage : Type := mkIgnorePackage {
  Rules : Type;
  ignore : Rules;
  add : Rules -> jsstring -> Rules;
  matcher : Rules -> Ignore
}.

Definition DEFAULT_IGNORE : list jsstring :=
  map lit
    ["node_modules"; ".git"; "vendor"; "dist"; "build"; ".next"; "storage";
     ".DS_Store"; "*.lock"; "package-lock.json"; "composer.lock";
     "*.min.js"; "*.min.css"; "*.map"; "*.png"; "*.jpg"; "*.jpeg"; "*.gif";
     "*.svg"; "*.ico"; "*.woff"; "*.woff2"; "*.ttf"; "*.eot"; "*.pdf";
     "*.zip"; "*.tar.gz"; "*.sqlite"; "*.db"; "*.pyc"; ".env"; ".env.*";
     ".memo8.json"]%string.

Definition addFileIfExists (pkg : IgnorePackage) (fs : FileSystem)
    (p : Path) (ig : Rules pkg) : result JsError (Rules pkg) :=
  if existsSync fs p then
    try! content <- readFileSync_utf8 fs p; Ok (add pkg ig content)
  else Ok ig.

Definition loadGitignore (pkg : IgnorePackage) (fs : FileSystem) (dir : Path)
  : result JsError Ignore :=
  let ig := fold_left (add pkg) DEFAULT_IGNORE (ignore pkg) in
  try! ig <- addFileIfExists pkg fs (join dir (lit ".gitignore")) ig;
  try! ig <- addFileIfExists pkg fs (join dir (lit ".memo8ignore")) ig;
  Ok (matcher pkg ig).

(** ** The admission filter ([codebase.ts], lines 156-181) *)

Record FileEntry : Type := mkFileEntry {
  file_path : jsstring;
  file_hash : jsstring;
  content : jsstring
}.

(** The body of [for (const filePath of filePaths)]: the entry pushed on
    [allEntries], or nothing.  [read] is what [fs.readFileSync(filePath)]
    did; a throw is caught and the file skipped. *)
Definition admitFile (baseDir filePath : Path) (read : result JsError Buffer)
  : option FileEntry :=
  match read with
  | Throw _ => None
  | Ok buf =>
      if includes 0 (subarray0 8192 buf) then None
      else
        let content := toString_utf8 buf in
        if falsy (trim content) then None
        else
          let hash := sha256_hex content in
          let relativePath := relative baseDir filePath in
          Some (mkFileEntry relativePath hash content)
  end.

Definition readEntries (fs : FileSystem) (baseDir : Path)
    (filePaths : list Path) : list FileEntry :=
  flat_map
    (fun filePath =>
       match admitFile baseDir filePath (readFileSync fs filePath) with
       | Some entry => [entry]
       | None => []
       end)
    filePaths.

(** ** Batch construction ([codebase.ts], lines 189-208) *)

Definition entrySize (entry : FileEntry) : N :=
  byteLength (content entry) + strlen (file_path entry)
  + strlen (file_hash entry) + 100.

(** The three variables of the loop. *)
Record BatchState : Type := mkBatchState {
  batches : list (list FileEntry);
  currentBatch : list FileEntry;
  currentSize : N
}.

(** One iteration of [for (const entry of allEntries)]. *)
Definition batchStep (st : BatchState) (entry : FileEntry) : BatchState :=
  let size := entrySize entry in
  let st1 :=
    if (0 <? len (currentBatch st))
       && (MAX_BATCH_BYTES <? currentSize st + size)
    then mkBatchState (batches st ++ [currentBatch st]) [] 0
    else st in
  mkBatchState (batches st1) (currentBatch st1 ++ [entry])
               (currentSize st1 + size).

(** The flush after the loop. *)
Definition batchFlush (st : BatchState) : list (list FileEntry) :=
  if (0 <? len (currentBatch st))
  then batches st ++ [currentBatch st]
  else batches st.

Definition buildBatches (allEntries : list FileEntry) : list (list FileEntry) :=
  batchFlush (fold_left batchStep allEntries (mkBatchState [] [] 0)).


(** ** The global configuration file ([config.ts]) *)

Record User : Type := mkUser {
  user_id : N;
  user_name : string;
  user_email : string
}.

(** [GlobalConfig]: every field is optional. *)
Record GlobalConfig : Type := mkGlobalConfig {
  apiUrl : option string;
  token : option string;
  user : option User;
  teamId : option N
}.

(** [~/.memo8/config.json]: its parsed content, or [None] when the file is
    missing or does not parse. *)
Definition ConfigFile := option GlobalConfig.

Definition loadGlobalConfig (file : ConfigFile) : GlobalConfig :=
  match file with
  | Some config => config
  | None => mkGlobalConfig None None None None
  end.

(** What [fs.mkdirSync] and [fs.writeFileSync] do with the configuration
    directory and file: they write, or one of them throws a system error
    (the directory or the file cannot be written). *)
Inductive WriteOutcome : Type :=
| Written
| WriteFails (code message : string).

(** [saveGlobalConfig(config)]: [fs.mkdirSync] when the directory is not
    there, then [fs.writeFileSync], neither of them guarded.  When one
    throws, the file stays as it was. *)
Definition saveGlobalConfig (write : WriteOutcome) (config : GlobalConfig)
  : result JsError ConfigFile :=
  match write with
  | Written => Ok (Some config)
  | WriteFails code message => Throw (SystemError code message)
  end.

(** [delete config.token; delete config.user; delete config.teamId], and the
    file written back. *)
Definition clearAuth (write : WriteOutcome) (file : ConfigFile)
  : result JsError ConfigFile :=
  let config := loadGlobalConfig file in
  let config := mkGlobalConfig (apiUrl config) None (user config) (teamId config) in
  let config := mkGlobalConfig (apiUrl config) (token config) None (teamId config) in
  let config := mkGlobalConfig (apiUrl config) (token config) (user config) None in
  saveGlobalConfig write config.

(** [a || b] on strings and numbers that may be undefined. *)
Definition truthy_string (s : option string) : option string :=
  match s with
  | Some EmptyString | None => None
  | Some s => Some s
  end.
Definition truthy_number (n : option N) : option N :=
  match n with
  | Some 0 | None => None
  | Some n => Some n
  end.

(** [getToken()], [getTeamId()]; [env_token] is [process.env.MEMO8_API_TOKEN]. *)
Definition getToken (env_token : option string) (file : ConfigFile)
  : option string :=
  match truthy_string env_token with
  | Some t => Some t
  | None => truthy_string (token (loadGlobalConfig file))
  end.
Definition getTeamId (file : ConfigFile) : option N :=
  truthy_number (teamId (loadGlobalConfig file)).

(** ** Requests *)

Inductive Method : Type := GET | POST | PUT | PATCH | DELETE.

Inductive Url : Type :=
| CodebaseIndexUrl (projectId : N)   (* /projects/${projectId}/codebase/index *)
| OtherUrl (path : string).

Inductive Payload : Type :=
| NoPayload
| FilesPayload (files : list FileEntry).   (* { files: batch } *)

Record Request : Type := mkRequest {
  method : Method;
  url : Url;
  payload : Payload;
  authorization : option string;   (* Bearer token *)
  x_team_id : option N
}.

Record Response : Type := mkResponse {
  resp_status : N;
  resp_data : option RespData
}.

Inductive AxiosOutcome : Type :=
| Resolved (response : Response)
| Rejected (error : AxiosFailure).

(** What comes back from the network: an HTTP response, or none. *)
Inductive Reply : Type :=
| HttpResponse (status : N) (data : option RespData)
| NetworkError (code : option string) (message : string).

(** axios settles a response by its status (the default [validateStatus]):
    2xx resolves the promise, anything else rejects it. *)
Definition validateStatus (status : N) : bool :=
  (200 <=? status) && (status <? 300).

Definition status_message (status : N) : string :=
  "Request failed with status code " ++ NilZero.string_of_uint (N.to_uint status).

Definition settle (reply : Reply) : AxiosOutcome :=
  match reply with
  | HttpResponse status data =>
      if validateStatus status then Resolved (mkResponse status data)
      else Rejected (BadStatus status data (status_message status))
  | NetworkError code message => Rejected (NoResponse code message)
  end.

(** What the command writes on the terminal. *)
Inductive Console : Type :=
| ConsoleInfo_found (n : N)                 (* Found n files to index. *)
| ConsoleWarn (message : string)
| ConsoleSuccess_indexed (files batches : N)
| ConsoleError (message : string)
| ConsoleFieldError (field message : string).

(** ** The state of a run: the remote server, the requests sent to it so
    far, the global configuration file, the terminal. *)
Record World (ServerState : Type) : Type := mkWorld {
  fs : FileSystem;
  local_projectId : option N;     (* [projectId] of [.memo8.json] *)
  server : ServerState;
  sent : list Request;
  config_file : ConfigFile;
  config_write : WriteOutcome;    (* what writing that file does *)
  env_token : option string;
  console : list Console
}.
Arguments mkWorld {ServerState}.
Arguments fs {ServerState}.
Arguments local_projectId {ServerState}.
Arguments server {ServerState}.
Arguments sent {ServerState}.
Arguments config_file {ServerState}.
Arguments config_write {ServerState}.
Arguments env_token {ServerState}.
Arguments console {ServerState}.

Section Program.

Variable ServerState : Type.
(** The remote end: what comes back for a request. *)
Variable serve : ServerState -> Request -> ServerState * Reply.

Abbreviation World := (World ServerState).

(** *** Computations that change the world and may throw *)

Definition M (A : Type) : Type := World -> World * result JsError A.

Definition ret {A} (a : A) : M A := fun w => (w, Ok a).
Definition throw {A} (err : JsError) : M A := fun w => (w, Throw err).
Definition bindM {A B} (m : M A) (k : A -> M B) : M B :=
  fun w =>
    match m w with
    | (w', Ok a) => k a w'
    | (w', Throw err) => (w', Throw err)
    end.
(** [try { m } catch (err) { handler err }]. *)
Definition catch {A} (m : M A) (handler : JsError -> M A) : M A :=
  fun w =>
    match m w with
    | (w', Ok a) => (w', Ok a)
    | (w', Throw err) => handler err w'
    end.

Notation "x <- m ;; k" := (bindM m (fun x => k))
  (at level 61, m at next level, right associativity).
Notation "m ;; k" := (bindM m (fun _ => k))
  (at level 61, right associativity).

Definition print (line : Console) : M unit :=
  fun w => (mkWorld (fs w) (local_projectId w) (server w) (sent w)
                    (config_file w) (config_write w) (env_token w)
                    (console w ++ [line]),
            Ok tt).

(** *** The client ([api.ts], [createApiClient]) *)

(** The request interceptor adds the headers. *)
Definition outgoing (m : Method) (u : Url) (data : Payload) (w : World)
  : Request :=
  mkRequest m u data
            (getToken (env_token w) (config_file w))
            (getTeamId (config_file w)).

(** axios sends the request and settles the reply. *)
Definition dispatch (m : Method) (u : Url) (data : Payload)
  : World -> World * AxiosOutcome :=
  fun w =>
    let req := outgoing m u data w in
    let '(s', reply) := serve (server w) req in
    (mkWorld (fs w) (local_projectId w) s' (sent w ++ [req])
             (config_file w) (config_write w) (env_token w) (console w),
     settle reply).

Definition string_in (s : option string) (l : list string) : bool :=
  match s with
  | Some s => existsb (String.eqb s) l
  | None => false
  end.

Definition or_string (a : option string) (b : string) : string :=
  match truthy_string a with Some s => s | None => b end.
Definition data_message (data : option RespData) : option string :=
  match data with Some d => d_message d | None => None end.
Definition data_errors (data : option RespData)
  : option (list (string * list string)) :=
  match data with Some d => d_errors d | None => None end.

(** [status === n], where [status] may be undefined. *)
Definition status_is (status : option N) (n : N) : bool :=
  match status with Some s => s =? n | None => false end.

(** The rejection handler of the response interceptor: it always throws.
    On a 401 [clearAuth()] runs first; when that call throws, its error is
    what leaves the handler and nothing was written. *)
Definition onRejected (error : AxiosFailure) : World -> World * JsError :=
  fun w =>
    if string_in (error_code error) ["ECONNREFUSED"; "ENOTFOUND"]%string then
      (w, ApiError "Cannot connect to API. Is the server running?" 0 None)
    else
      let status := error_response_status error in
      let data := error_response_data error in
      if status_is status 401 then
        match clearAuth (config_write w) (config_file w) with
        | Ok file =>
            (mkWorld (fs w) (local_projectId w) (server w) (sent w)
                     file (config_write w) (env_token w) (console w),
             ApiError "Session expired. Please login again with: memo8 login"
                      401 data)
        | Throw e => (w, e)
        end
      else if status_is status 422 then
        (w, ValidationError
              (or_string (data_message data) "Validation failed")
              (match data_errors data with Some e => e | None => [] end))
      else
        (w, ApiError
              (or_string (data_message data)
                 (or_string (Some (error_message error))
                    "An unexpected error occurred"))
              (match truthy_number status with Some n => n | None => 0 end)
              data).

(** A request through the instance with its interceptors. *)
Definition request (m : Method) (u : Url) (data : Payload) : M Response :=
  fun w =>
    match dispatch m u data w with
    | (w', Resolved response) => (w', Ok response)
    | (w', Rejected error) =>
        let '(w'', err) := onRejected error w' in (w'', Throw err)
    end.

(** [ApiClient]: the interface of [api.ts]. *)
Record ApiClient : Type := mkApiClient {
  get : Url -> M Response;
  post : Url -> Payload -> M Response;
  put : Url -> Payload -> M Response;
  patch : Url -> Payload -> M Response;
  del : Url -> M Response
}.

Definition createApiClient : ApiClient :=
  mkApiClient
    (fun u => request GET u NoPayload)
    (fun u data => request POST u data)
    (fun u data => request PUT u data)
    (fun u data => request PATCH u data)
    (fun u => request DELETE u NoPayload).

(** *** The upload loop ([codebase.ts], lines 210-233) *)

(** [Math.ceil(n / 2)]. *)
Definition ceil_half (n : N) : N := (n + 1) / 2.

(** [batch.slice(0, mid)] and [batch.slice(mid)]. *)
Definition slice_to {A} (mid : N) (a : list A) : list A :=
  firstn (N.to_nat mid) a.
Definition slice_from {A} (mid : N) (a : list A) : list A :=
  skipn (N.to_nat mid) a.

(** The body of [for (let i = 0; ...)] up to the [catch]. *)
Definition submitBatch (api : ApiClient) (projectId : N)
    (batch : list FileEntry) : M unit :=
  catch
    (post api (CodebaseIndexUrl projectId) (FilesPayload batch) ;; ret tt)
    (fun err =>
       let status := response_status_of err in
       if status_is status 413 && (1 <? len batch) then
         let mid := ceil_half (len batch) in
         let half1 := slice_to mid batch in
         let half2 := slice_from mid batch in
         post api (CodebaseIndexUrl projectId) (FilesPayload half1) ;;
         post api (CodebaseIndexUrl projectId) (FilesPayload half2) ;;
         ret tt
       else throw err).

(** The loop; [indexed] is the running count shown by the spinner. *)
Fixpoint uploadBatches (api : ApiClient) (projectId : N)
    (batches : list (list FileEntry)) (indexed : N) : M N :=
  match batches with
  | [] => ret indexed
  | batch :: rest =>
      submitBatch api projectId batch ;;
      uploadBatches api projectId rest (indexed + len batch)
  end.

(** *** The [index] command ([codebase.ts], lines 130-240) *)

Variable pkg : IgnorePackage.

Definition lift {A} (r : result JsError A) : M A := fun w => (w, r).
Definition getFs : M FileSystem := fun w => (w, Ok (fs w)).
Definition getProjectId : M (option N) :=
  fun w => (w, Ok (truthy_number (local_projectId w))).

Definition indexBody : M unit :=
  projectId <- getProjectId ;;
  match projectId with
  | None => print (ConsoleWarn "No project specified. Run: memo8 init")
  | Some projectId =>
      disk <- getFs ;;
      let baseDir := cwd disk in
      ig <- lift (loadGitignore pkg disk baseDir) ;;
      filePaths <- lift (walkDirectory ig baseDir baseDir (root disk)) ;;
      print (ConsoleInfo_found (len filePaths)) ;;
      if len filePaths =? 0 then
        print (ConsoleWarn "No files found to index.")
      else
        let api := createApiClient in
        let allEntries := readEntries disk baseDir filePaths in
        if len allEntries =? 0 then
          print (ConsoleWarn "No indexable files found (all binary or empty).")
        else
          let batches := buildBatches allEntries in
          uploadBatches api projectId batches 0 ;;
          print (ConsoleSuccess_indexed (len allEntries) (len batches))
  end.

(** [handleError(err)] ([output.ts]): the message, the field errors of a
    [ValidationError], then [process.exit(1)]. *)
Definition field_lines (errors : list (string * list string)) : list Console :=
  flat_map (fun fe => map (ConsoleFieldError (fst fe)) (snd fe)) errors.

Fixpoint print_lines (lines : list Console) : M unit :=
  match lines with
  | [] => ret tt
  | line :: rest => print line ;; print_lines rest
  end.

Definition handleError (err : JsError) : M unit :=
  print (ConsoleError (message_of err)) ;;
  match err with
  | ValidationError _ errors => print_lines (field_lines errors)
  | SystemError _ _ | RawAxiosError _ | ApiError _ _ _ => ret tt
  end.

Inductive ExitStatus : Type := Returned | Exit1.

Definition indexAction : World -> World * ExitStatus :=
  fun w =>
    match indexBody w with
    | (w', Ok _) => (w', Returned)
    | (w', Throw err) => (fst (handleError err w'), Exit1)
    end.

End Program.

Arguments createApiClient {ServerState}.
Arguments submitBatch {ServerState}.
Arguments uploadBatches {ServerState}.
Arguments request {ServerState}.
Arguments onRejected {ServerState}.
Arguments dispatch {ServerState}.
Arguments outgoing {ServerState}.
Arguments indexAction {ServerState}.
Arguments indexBody {ServerState}.
Arguments post {ServerState}.
Arguments handleError {ServerState}.
Arguments print {ServerState}.
Arguments M : clear implicits.
Arguments ret {ServerState A}.
Arguments throw {ServerState A}.
Arguments bindM {ServerState A B}.
Arguments catch {ServerState A}.
Arguments print_lines {ServerState}.

(** ** The other writers of the global configuration file ([config.ts],
    lines 82-96) *)

(** [setTeamId(teamId)]. *)
Definition setTeamId (write : WriteOutcome) (newTeamId : N) (file : ConfigFile)
  : result JsError ConfigFile :=
  let config := loadGlobalConfig file in
  let config :=
    mkGlobalConfig (apiUrl config) (token config) (user config) (Some newTeamId) in
  saveGlobalConfig write config.

(** [setAuth(token, user, teamId?)]: the team id is written only when one
    is given and is not zero. *)
Definition setAuth (write : WriteOutcome) (newToken : string) (newUser : User)
    (newTeamId : option N) (file : ConfigFile) : result JsError ConfigFile :=
  let config := loadGlobalConfig file in
  let config :=
    mkGlobalConfig (apiUrl config) (Some newToken) (user config) (teamId config) in
  let config :=
    mkGlobalConfig (apiUrl config) (token config) (Some newUser) (teamId config) in
  let config :=
    match truthy_number newTeamId with
    | Some t => mkGlobalConfig (apiUrl config) (token config) (user config) (Some t)
    | None => config
    end in
  saveGlobalConfig write config.

(** ** The local configuration file ([config.ts], lines 32-49 and 72-75) *)

(** [LocalConfig]: both fields are optional. *)
Record LocalConfig : Type := mkLocalConfig {
  lc_projectId : option N;
  lc_projectName : option jsstring
}.

Definition LOCAL_CONFIG_FILE : jsstring := lit ".memo8.json".

Section LocalConfigFile.

(** [JSON.parse(data) as LocalConfig]; it throws on what is not JSON. *)
Variable JSON_parse : jsstring -> result JsError LocalConfig.
(** The tree of the root directory: the paths of this section are absolute. *)
Variable whole : node.

Definition fromRoot : FileSystem := mkFileSystem [] whole.

(** The loop [while (dir !== root)].  [up] is [dir] read upwards, its last
    component first, so that [path.dirname(dir)] is the tail of [up] and the
    root directory is the empty list. *)
Fixpoint loadLocalLoop (up : list jsstring) : LocalConfig :=
  match up with
  | [] => mkLocalConfig None None
  | _ :: parent =>
      let dir := rev up in
      let configPath := join dir LOCAL_CONFIG_FILE in
      if existsSync fromRoot configPath then
        match (try! data <- readFileSync_utf8 fromRoot configPath;
               JSON_parse data) with
        | Ok config => config
        | Throw _ => mkLocalConfig None None
        end
      else loadLocalLoop parent
  end.

(** [loadLocalConfig()], with [dir] for [process.cwd()]. *)
Definition loadLocalConfig (dir : Path) : LocalConfig := loadLocalLoop (rev dir).

(** [getProjectId()], read from the file rather than from the world. *)
Definition getProjectIdFrom (dir : Path) : option N :=
  truthy_number (lc_projectId (loadLocalConfig dir)).

End LocalConfigFile.

(** ** The [logout] command ([auth.ts]) *)

(** [s.includes(needle)] on a message. *)
Definition string_includes (needle s : string) : bool :=
  match index 0 needle s with Some _ => true | None => false end.

(** How the command ends: [success(message)] and a normal return;
    [handleError(err)], which exits with status 1; or an error that leaves
    the [catch] clause itself and so the command, uncaught. *)
Inductive Ending : Type :=
| Succeeded (message : string)
| Failed
| Uncaught (err : JsError).

Section Commands.

Variable ServerState : Type.
Variable serve : ServerState -> Request -> ServerState * Reply.

(** [clearAuth()] on the configuration file of the world. *)
Definition clearAuthNow : M ServerState unit :=
  fun w =>
    match clearAuth (config_write w) (config_file w) with
    | Ok file =>
        (mkWorld (fs w) (local_projectId w) (server w) (sent w)
                 file (config_write w) (env_token w) (console w),
         Ok tt)
    | Throw e => (w, Throw e)
    end.

Definition logoutAction : World ServerState -> World ServerState * Ending :=
  fun w =>
    let api := createApiClient serve in
    match bindM (post api (OtherUrl "/logout") NoPayload)
                (fun _ => clearAuthNow) w with
    | (w', Ok _) => (w', Succeeded "Logged out successfully.")
    | (w', Throw err) =>
        (* Clear local auth even if API call fails *)
        match clearAuthNow w' with
        | (w'', Ok _) =>
            if string_includes "Session expired" (message_of err) then
              (w'', Succeeded "Logged out successfully.")
            else (fst (handleError err w''), Failed)
        | (w'', Throw err') => (w'', Uncaught err')
        end
    end.

End Commands.

Arguments clearAuthNow {ServerState}.
Arguments logoutAction {ServerState}.

(** ** The rows of [codebase search] ([codebase.ts], lines 267-278) *)

Module SearchTable.

(** The fields of [CodebaseFile] that the table shows. *)
Record CodebaseFile : Type := mkCodebaseFile {
  id : N;
  filePath : jsstring;
  language : option jsstring;       (* string | null *)
  fileType : jsstring;
  contentSummary : option jsstring  (* string | null *)
}.

(** [s.slice(-n)]: the last [n] code units, all of [s] when it has fewer. *)
Definition slice_last (n : nat) (s : jsstring) : jsstring :=
  skipn (List.length s - n) s.
(** [s.substring(0, n)]. *)
Definition substring0 (n : nat) (s : jsstring) : jsstring := firstn n s.
(** [s || d] on a string that may be null. *)
Definition or_else (s : option jsstring) (d : jsstring) : jsstring :=
  match s with
  | Some (c :: s') => c :: s'
  | Some [] | None => d
  end.
(** [String(n)]. *)
Definition String_of (n : N) : jsstring :=
  lit (NilZero.string_of_uint (N.to_uint n)).

(** The function mapped over [data.data]. *)
Definition searchRow (f : CodebaseFile) : list jsstring :=
  [String_of (id f);
   if 40 <? strlen (filePath f)
   then lit "..." ++ slice_last 37 (filePath f)
   else filePath f;
   or_else (language f) (lit "-");
   fileType f;
   match contentSummary f with
   | Some (c :: s) =>
       if 30 <? strlen (c :: s)
       then substring0 27 (c :: s) ++ lit "..."
       else c :: s
   | Some [] | None => lit "-"
   end].

End SearchTable.

(* ================================================================== *)
(** * Part II.  Vocabulary of the properties, and sample inputs         *)
(* ================================================================== *)

(** ** Batches *)

(** The estimated size of a batch: the sum of the sizes of its entries. *)
Definition batchSize (batch : list FileEntry) : N :=
  fold_right (fun entry acc => entrySize entry + acc) 0 batch.

(** A batch respects the ceiling, or is one entry that alone exceeds it. *)
Definition bounded_or_alone (batch : list FileEntry) : Prop :=
  batchSize batch <= MAX_BATCH_BYTES
  \/ exists entry, batch = [entry] /\ MAX_BATCH_BYTES < entrySize entry.

(** What holds of the loop variables once the entries [seen] are consumed. *)
Record BatchInv (seen : list FileEntry) (st : BatchState) : Prop := mkBatchInv {
  inv_concat : concat (batches st) ++ currentBatch st = seen;
  inv_size : currentSize st = batchSize (currentBatch st);
  inv_nonempty : Forall (fun b => b <> []) (batches st);
  inv_closed : Forall bounded_or_alone (batches st);
  inv_current : currentBatch st = [] \/ bounded_or_alone (currentBatch st)
}.

(** The request that submits [batch] for the project. *)
Definition is_upload_of (projectId : N) (batch : list FileEntry)
    (req : Request) : Prop :=
  method req = POST /\ url req = CodebaseIndexUrl projectId
  /\ payload req = FilesPayload batch.

(** ** Files *)

(** Some byte among the first 8192 of the buffer is zero. *)
Definition null_in_first_8K (buf : Buffer) : Prop :=
  exists i : N, i < 8192 /\ nth_error buf (N.to_nat i) = Some 0.

(** Every code unit is a WhiteSpace or a LineTerminator (the empty string
    included). *)
Definition whitespace_only (s : jsstring) : Prop :=
  Forall (fun c => is_whitespace c = true) s.

(** One of [0-9a-f]. *)
Definition is_lower_hex (c : codeunit) : Prop :=
  (48 <= c <= 57) \/ (97 <= c <= 102).

(** ** The walk *)

(** The files a walk is to report, by their components below the base
    directory: a regular file that is not ignored and is at most
    [MAX_FILE_SIZE] bytes long, reached through directories none of which
    is ignored, neither under its bare path nor with ['/'] appended.
    [visible ig pre d p]: [p] is such a file in the directory [d], whose own
    components are [pre]. *)
Inductive visible (ig : Ignore) : list jsstring -> node -> list jsstring -> Prop :=
| visible_file pre entries name size data :
    In (name, File (Ok size) data) entries ->
    ignores ig (render (pre ++ [name])) = false ->
    size <= MAX_FILE_SIZE ->
    visible ig pre (Dir (Ok entries)) (pre ++ [name])
| visible_dir pre entries name sub p :
    In (name, sub) entries ->
    ignores ig (render (pre ++ [name])) = false ->
    ignores ig (render (pre ++ [name]) ++ lit "/") = false ->
    visible ig (pre ++ [name]) sub p ->
    visible ig pre (Dir (Ok entries)) p.

(** What the entry [(name, n)] of the directory at [pre] contributes. *)
Definition contributes (ig : Ignore) (pre : list jsstring) (name : jsstring)
    (n : node) (p : list jsstring) : Prop :=
  ignores ig (render (pre ++ [name])) = false
  /\ ((exists size data,
         n = File (Ok size) data /\ size <= MAX_FILE_SIZE /\ p = pre ++ [name])
      \/ (ignores ig (render (pre ++ [name]) ++ lit "/") = false
          /\ visible ig (pre ++ [name]) n p)).

(** Every directory of the tree can be listed and every file examined. *)
Fixpoint readable (d : node) : bool :=
  match d with
  | File (Ok _) _ => true
  | File (Throw _) _ => false
  | Other => true
  | Dir (Ok entries) => forallb (fun ne => readable (snd ne)) entries
  | Dir (Throw _) => false
  end.

(** The result of a walk with every path prefixed by [b]. *)
Definition relocate (b : Path) (r : result JsError (list Path))
  : result JsError (list Path) :=
  match r with
  | Ok ps => Ok (map (app b) ps)
  | Throw e => Throw e
  end.

(** The walk followed by the admission filter, as the [index] command
    chains them. *)
Definition scanEntries (pkg : IgnorePackage) (disk : FileSystem)
  : result JsError (list FileEntry) :=
  try! ig <- loadGitignore pkg disk (cwd disk);
  try! filePaths <- walkDirectory ig (cwd disk) (cwd disk) (root disk);
  Ok (readEntries disk (cwd disk) filePaths).

(** A computation that leaves the file system as it found it. *)
Definition keeps_fs {ServerState A} (m : M ServerState A) : Prop :=
  forall w, fs (fst (m w)) = fs w.

(** Induction on a tree: a readable directory has the property when all its
    entries have it. *)
Section NodeInduction.

Variable P : node -> Prop.
Hypothesis P_file : forall stat_size data, P (File stat_size data).
Hypothesis P_other : P Other.
Hypothesis P_unreadable : forall e, P (Dir (Throw e)).
Hypothesis P_dir :
  forall entries, Forall (fun ne => P (snd ne)) entries -> P (Dir (Ok entries)).

Fixpoint node_tree_ind (d : node) : P d :=
  match d with
  | File stat_size data => P_file stat_size data
  | Other => P_other
  | Dir (Throw e) => P_unreadable e
  | Dir (Ok entries) =>
      P_dir entries
        ((fix all (es : Dirents) : Forall (fun ne => P (snd ne)) es :=
            match es with
            | [] => Forall_nil _
            | (name, n) :: rest =>
                Forall_cons (name, n) (node_tree_ind n) (all rest)
            end) entries)
  end.

End NodeInduction.

(** ** Sample inputs *)

(** A stand-in for the [ignore] package that takes every pattern literally:
    a path is ignored when it is one of the strings added. *)
Definition jsstring_eqb (a b : jsstring) : bool :=
  if component_eq_dec a b then true else false.

Definition literalPackage : IgnorePackage :=
  mkIgnorePackage (list jsstring) []
    (fun rules s => rules ++ [s])
    (fun rules => mkIgnore (fun p => existsb (jsstring_eqb p) rules)).

Definition literalIgnore : Ignore :=
  matcher literalPackage
    (fold_left (add literalPackage) DEFAULT_IGNORE (ignore literalPackage)).

Definition sampleBase : Path := [lit "home"; lit "dev"; lit "project"].

(** The tree of the end-to-end scenario of the specification. *)
Definition sampleEntries : Dirents :=
  [(lit "a.txt", File (Ok 10) (Ok (lit "0123456789")));
   (lit "b.bin", File (Ok 4) (Ok [137; 80; 0; 71]));
   (lit "empty.txt", File (Ok 0) (Ok []));
   (lit "node_modules",
    Dir (Ok [(lit "x.js", File (Ok 10) (Ok (lit "let x = 1;")))]))].

Definition sampleTree : node := Dir (Ok sampleEntries).

(** The same with a directory that cannot be read. *)
Definition guardedTree : node :=
  Dir (Ok (sampleEntries ++ [(lit "secret", Dir (Throw EACCES))])).

(** The same with the unreadable directory inside an ignored one. *)
Definition trappedTree : node :=
  Dir (Ok [(lit "a.txt", File (Ok 10) (Ok (lit "0123456789")));
           (lit "node_modules",
            Dir (Ok [(lit "cache", Dir (Throw EACCES))]))]).

Definition entryA : FileEntry :=
  mkFileEntry (lit "a.txt") (sha256_hex (lit "0123456789")) (lit "0123456789").
Definition entryB : FileEntry :=
  mkFileEntry (lit "src/b.ts") (sha256_hex (lit "export {};")) (lit "export {};").
Definition entryC : FileEntry :=
  mkFileEntry (lit "src/c.ts") (sha256_hex (lit "let c = 3;")) (lit "let c = 3;").

(** An entry of a little more than 4 MiB. *)
Definition bigEntry : FileEntry :=
  mkFileEntry (lit "dump.sql") (lit "") (repeat 97 (N.to_nat MAX_BATCH_BYTES)).

Definition sampleConfig : GlobalConfig :=
  mkGlobalConfig (Some "https://api.memo8.ai/api"%string)
                 (Some "secret-token"%string)
                 (Some (mkUser 1 "Ada" "ada@example.org"))
                 (Some 3).

(** axios with the request interceptor only: a rejection reaches the
    caller as axios made it.  The program never builds this client; it is
    the client the [catch] clause of the upload loop is written for. *)
Definition bareRequest {ServerState : Type}
    (serve : ServerState -> Request -> ServerState * Reply)
    (m : Method) (u : Url) (data : Payload) : M ServerState Response :=
  fun w =>
    match dispatch serve m u data w with
    | (w', Resolved response) => (w', Ok response)
    | (w', Rejected error) => (w', Throw (RawAxiosError error))
    end.

Definition bareClient {ServerState : Type}
    (serve : ServerState -> Request -> ServerState * Reply)
  : ApiClient ServerState :=
  mkApiClient ServerState
    (fun u => bareRequest serve GET u NoPayload)
    (fun u data => bareRequest serve POST u data)
    (fun u data => bareRequest serve PUT u data)
    (fun u data => bareRequest serve PATCH u data)
    (fun u => bareRequest serve DELETE u NoPayload).

Definition reply200 : Reply := HttpResponse 200 None.

(** The synthetic server of the specification: more than [limit] entries in
    one request are answered 413. *)
Definition rejectLargerThan (limit : N) : unit -> Request -> unit * Reply :=
  fun s req =>
    match payload req with
    | FilesPayload files =>
        if limit <? len files then (s, HttpResponse 413 None)
        else (s, reply200)
    | NoPayload => (s, reply200)
    end.

(** A server that counts the requests and answers the one numbered [k]
    with [reply]. *)
Definition failNth (k : N) (reply : Reply) : N -> Request -> N * Reply :=
  fun n _ => (n + 1, if n =? k then reply else reply200).

(** A world of project 7 in [sampleBase]: the state of the server, the
    tree, the requests sent, the configuration file, the terminal.  The
    configuration file can be written. *)
Definition worldOf {ServerState : Type} (s : ServerState) (tree : node)
    (reqs : list Request) (file : ConfigFile) (out : list Console)
  : World ServerState :=
  mkWorld (mkFileSystem sampleBase tree) (Some 7) s reqs file Written None out.

Definition sampleWorld {ServerState : Type} (s : ServerState) (tree : node)
  : World ServerState :=
  worldOf s tree [] (Some sampleConfig) [].


(** The upload of [files] as the sample world sends it. *)
Definition sampleUpload (files : list FileEntry) : Request :=
  mkRequest POST (CodebaseIndexUrl 7) (FilesPayload files)
            (Some "secret-token"%string) (Some 3).

(** ** Unicode *)

(** A Unicode scalar value: a code point that is not a surrogate. *)
Definition is_scalar (cp : N) : Prop :=
  cp < 0xD800 \/ (0xE000 <= cp /\ cp < 0x110000).

(** Well-formed UTF-8: the encoding of a sequence of scalar values. *)
Definition wellformed_utf8 (buf : Buffer) : Prop :=
  exists cps, Forall is_scalar cps /\ buf = flat_map utf8_of_codepoint cps.

(** What the decoder keeps of a sequence under way: the bits read so far
    and the range of the next byte leave only scalar values to come. *)
Definition good_acc (acc : N) : Prop := acc < 864 \/ (896 <= acc /\ acc < 17408).
Definition pending_ok (p : Pending) : Prop :=
  0x80 <= lower p /\ upper p <= 0xBF /\
  ((needed p = 1 /\ good_acc (cp_acc p))
   \/ (needed p = 2 /\ cp_acc p < 272 /\ (cp_acc p = 13 -> upper p <= 0x9F))
   \/ (needed p = 3 /\ cp_acc p <= 4 /\ (cp_acc p = 4 -> upper p <= 0x8F)
       /\ (cp_acc p = 0 -> 0x90 <= lower p))).
Definition state_ok (st : option Pending) : Prop :=
  match st with None => True | Some p => pending_ok p end.

(** The bytes a sequence under way may still cost when it is cut short. *)
Definition credit (st : option Pending) : nat :=
  match st with None => 0 | Some _ => 3 end.

(** ** Batches in a row *)

(** A batch is closed only when the next entry did not fit: of two batches
    in a row, the first with the first entry of the second exceeds the
    ceiling. *)
Fixpoint tight (bs : list (list FileEntry)) : Prop :=
  match bs with
  | b1 :: (b2 :: _) as rest =>
      match b2 with
      | entry :: _ => MAX_BATCH_BYTES < batchSize b1 + entrySize entry
      | [] => True
      end /\ tight rest
  | _ => True
  end.

Record TightInv (st : BatchState) : Prop := mkTightInv {
  tight_size : currentSize st = batchSize (currentBatch st);
  tight_start : currentBatch st = [] -> batches st = [];
  tight_chain : tight (batches st ++ [currentBatch st])
}.

(** ** Requests and replies *)


(** A reply that resolves the promise. *)
Definition accepted (reply : Reply) : bool :=
  match reply with
  | HttpResponse status _ => validateStatus status
  | NetworkError _ _ => false
  end.

(** The status and the body of the reply; status 0 when there was none. *)
Definition reply_status (reply : Reply) : N :=
  match reply with
  | HttpResponse status _ => status
  | NetworkError _ _ => 0
  end.
Definition reply_data (reply : Reply) : option RespData :=
  match reply with
  | HttpResponse _ data => data
  | NetworkError _ _ => None
  end.

(** The error of the client after a 401. *)
Definition session_expired (err : JsError) : Prop :=
  exists data,
    err = ApiError "Session expired. Please login again with: memo8 login" 401 data.

(** An entry the [index] command may send: a file the walk is to report,
    read and admitted. *)
Definition indexable (pkg : IgnorePackage) (disk : FileSystem)
    (entry : FileEntry) : Prop :=
  exists ig segs buf,
    loadGitignore pkg disk (cwd disk) = Ok ig
    /\ visible ig [] (root disk) segs
    /\ readFileSync disk (cwd disk ++ segs) = Ok buf
    /\ admitFile (cwd disk) (cwd disk ++ segs) (Ok buf) = Some entry.

(** ** Trees *)

(** No two entries of a directory have the same name, at any level. *)
Fixpoint unique_names (d : node) : Prop :=
  match d with
  | Dir (Ok entries) =>
      NoDup (map fst entries)
      /\ (fix all (es : Dirents) : Prop :=
            match es with
            | [] => True
            | (_, n) :: rest => unique_names n /\ all rest
            end) entries
  | _ => True
  end.

(** ** The local configuration file *)

(** What the file of [dir] gives when it is the one found: its content, or
    the empty configuration when it cannot be read or parsed. *)
Definition configAt (JSON_parse : jsstring -> result JsError LocalConfig)
    (whole : node) (dir : Path) : LocalConfig :=
  match (try! data <- readFileSync_utf8 (fromRoot whole)
                        (join dir LOCAL_CONFIG_FILE);
         JSON_parse data) with
  | Ok config => config
  | Throw _ => mkLocalConfig None None
  end.

(** ** More sample inputs *)

(** A server that accepts every request. *)
Definition acceptAll : unit -> Request -> unit * Reply :=
  fun s _ => (s, reply200).

(** A server that cannot be reached. *)
Definition unreachable : unit -> Request -> unit * Reply :=
  fun s _ => (s, NetworkError (Some "ECONNREFUSED"%string)
                              "connect ECONNREFUSED 127.0.0.1:443").

(** A server that answers every request with [status]. *)
Definition answerAll (status : N) : unit -> Request -> unit * Reply :=
  fun s _ => (s, HttpResponse status None).

(** The bytes of U+00E9, U+20AC and U+1F600 in UTF-8, then a line feed,
    and the same text in UTF-16. *)
Definition accentedBytes : Buffer :=
  [0xC3; 0xA9; 0xE2; 0x82; 0xAC; 0xF0; 0x9F; 0x98; 0x80; 0x0A].
Definition accentedText : jsstring := [0xE9; 0x20AC; 0xD83D; 0xDE00; 0x0A].

Definition accentedEntry : FileEntry :=
  mkFileEntry (lit "cafe.txt") (sha256_hex accentedText) accentedText.

(** A file that is not UTF-8: a stray byte and a sequence cut short; both
    are read as U+FFFD. *)
Definition brokenBytes : Buffer := [0x61; 0xFF; 0xC3].
Definition brokenEntry : FileEntry :=
  mkFileEntry (lit "broken.txt") (sha256_hex [0x61; 0xFFFD; 0xFFFD])
              [0x61; 0xFFFD; 0xFFFD].

(** A disk where the project of [sampleBase] has its configuration one
    level up, and the root directory has one of its own. *)
Definition sampleDisk : node :=
  Dir (Ok [(lit ".memo8.json", File (Ok 1) (Ok (lit "9")));
           (lit "home",
            Dir (Ok [(lit "dev",
                      Dir (Ok [(lit ".memo8.json", File (Ok 1) (Ok (lit "7")));
                               (lit "project", Dir (Ok []))]))]))]).

(** A stand-in for [JSON.parse]: the file holds the project id as one
    decimal digit. *)
Definition digitParse (data : jsstring) : result JsError LocalConfig :=
  match data with
  | [c] =>
      if (48 <=? c) && (c <=? 57) then Ok (mkLocalConfig (Some (c - 48)) None)
      else Throw (SystemError "SyntaxError" "Unexpected token")
  | _ => Throw (SystemError "SyntaxError" "Unexpected end of JSON input")
  end.

(** A tree whose [.gitignore] is a directory. *)
Definition gitignoreDirTree : node :=
  Dir (Ok [(lit ".gitignore", Dir (Ok []));
           (lit "a.txt", File (Ok 10) (Ok (lit "0123456789")))]).

(** A tree three levels deep. *)
Definition deepTree : node :=
  Dir (Ok [(lit "src",
            Dir (Ok [(lit "lib",
                      Dir (Ok [(lit "api.ts",
                                File (Ok 10) (Ok (lit "export {};")))]))]));
           (lit "a.txt", File (Ok 10) (Ok (lit "0123456789")))]).

(* ================================================================== *)
(** * Part III.  Properties                                             *)
(* ================================================================== *)

(** ** JavaScript strings *)

Lemma utf8_encode_ascii (s : jsstring) :
  Forall (fun c => c < 0x80) s -> utf8_encode s = s.
Proof.
  induction 1 as [|c s Hc _ IH]; [reflexivity|].
  cbn [utf8_encode].
  assert (is_high_surrogate c = false) as ->.
  { unfold is_high_surrogate. apply andb_false_intro1. apply N.leb_gt. lia. }
  assert (is_low_surrogate c = false) as ->.
  { unfold is_low_surrogate. apply andb_false_intro1. apply N.leb_gt. lia. }
  unfold utf8_of_codepoint. apply N.ltb_lt in Hc. rewrite Hc. simpl.
  rewrite IH. reflexivity.
Qed.

Lemma byteLength_repeat_ascii (c : codeunit) (n : nat) :
  c < 0x80 -> byteLength (repeat c n) = N.of_nat n.
Proof.
  intros Hc. unfold byteLength. rewrite utf8_encode_ascii.
  - rewrite repeat_length. reflexivity.
  - apply Forall_forall. intros x Hx. apply repeat_spec in Hx. subst. exact Hc.
Qed.

Lemma trimStart_nil_iff s : trimStart s = [] <-> whitespace_only s.
Proof.
  induction s as [|c s IH]; simpl.
  - split; [constructor|reflexivity].
  - destruct (is_whitespace c) eqn:E.
    + rewrite IH. split; [constructor; assumption|inversion 1; assumption].
    + split; [discriminate|]. inversion 1; congruence.
Qed.

Lemma trimStart_head s :
  trimStart s = []
  \/ exists c r, trimStart s = c :: r /\ is_whitespace c = false.
Proof.
  induction s as [|c s IH]; simpl; [left; reflexivity|].
  destruct (is_whitespace c) eqn:E; [exact IH|].
  right. exists c, s. split; [reflexivity|exact E].
Qed.

(** [s.trim()] is empty exactly when [s] is whitespace only. *)
Lemma trim_nil_iff s : trim s = [] <-> whitespace_only s.
Proof.
  unfold trim, trimEnd. split.
  - intros H. apply (f_equal (@rev _)) in H.
    rewrite rev_involutive in H. simpl in H.
    apply trimStart_nil_iff in H. unfold whitespace_only in H.
    apply Forall_rev in H. rewrite rev_involutive in H.
    apply trimStart_nil_iff.
    destruct (trimStart_head s) as [E|(c & r & E & Hc)]; [exact E|].
    rewrite E in H. inversion H; congruence.
  - intros H. apply trimStart_nil_iff in H. rewrite H. reflexivity.
Qed.

Lemma falsy_nil (s : jsstring) : falsy s = true <-> s = [].
Proof. destruct s; simpl; split; congruence. Qed.

Lemma len_pos {A} (a : list A) :
  (0 <? len a) = match a with [] => false | _ :: _ => true end.
Proof. destruct a; [reflexivity|]. unfold len. simpl. apply N.ltb_lt. lia. Qed.

(** ** SHA-256 digests in hexadecimal *)

Lemma hex_digit_lower d : d < 16 -> is_lower_hex (Sha256.hex_digit d).
Proof.
  intros H. unfold Sha256.hex_digit, is_lower_hex.
  destruct (d <? 10) eqn:E; [apply N.ltb_lt in E|apply N.ltb_ge in E]; lia.
Qed.

Lemma be_bytes_small n x : Forall (fun b => b < 256) (Sha256.be_bytes n x).
Proof.
  unfold Sha256.be_bytes. apply Forall_forall. intros b Hb.
  apply in_map_iff in Hb. destruct Hb as (i & <- & _).
  change 0xFF with (N.ones 8). rewrite N.land_ones.
  apply N.mod_lt. discriminate.
Qed.

Lemma hex_lower bs :
  Forall (fun b => b < 256) bs -> Forall is_lower_hex (Sha256.hex bs).
Proof.
  unfold Sha256.hex.
  induction 1 as [|b bs Hb _ IH]; cbn [flat_map app]; [constructor|].
  constructor; [|constructor; [|exact IH]].
  - apply hex_digit_lower.
    rewrite N.shiftr_div_pow2. change (2 ^ 4) with 16.
    apply N.Div0.div_lt_upper_bound. lia.
  - apply hex_digit_lower. change 0xF with (N.ones 4). rewrite N.land_ones.
    apply N.mod_lt. discriminate.
Qed.

Lemma hex_length bs : List.length (Sha256.hex bs) = (2 * List.length bs)%nat.
Proof. induction bs as [|b bs IH]; simpl; [reflexivity|]. rewrite IH. lia. Qed.

Lemma round_length v kw : List.length (Sha256.round v kw) = List.length v.
Proof.
  unfold Sha256.round.
  destruct v as [|a [|b [|c [|d [|e [|f [|g [|h [|]]]]]]]]]; reflexivity.
Qed.

Lemma compress_length H block :
  List.length (Sha256.compress H block) = List.length H.
Proof.
  unfold Sha256.compress. rewrite length_map, length_combine.
  assert (E : forall l v, List.length (fold_left Sha256.round l v) = List.length v).
  { induction l as [|kw l IH]; intros v; simpl; [reflexivity|].
    rewrite IH. apply round_length. }
  rewrite E. apply Nat.min_id.
Qed.

Lemma sha256_length msg : List.length (Sha256.sha256 msg) = 32%nat.
Proof.
  unfold Sha256.sha256.
  assert (E : forall ws st,
             List.length (fst st) = 8%nat ->
             List.length (fst (fold_left Sha256.absorb ws st)) = 8%nat).
  { induction ws as [|w ws IH]; intros [H cur] Hlen; simpl; [exact Hlen|].
    apply IH. destruct (Nat.eqb _ 16); simpl; [|exact Hlen].
    rewrite compress_length. exact Hlen. }
  specialize (E (Sha256.words_of_bytes (Sha256.pad msg)) (Sha256.H0, []) eq_refl).
  destruct (fold_left Sha256.absorb _ _) as [H cur]. simpl in E.
  destruct H as [|a [|b [|c [|d [|e [|f [|g [|h [|]]]]]]]]]; try discriminate.
  reflexivity.
Qed.

Lemma sha256_bytes msg : Forall (fun b => b < 256) (Sha256.sha256 msg).
Proof.
  unfold Sha256.sha256. destruct (fold_left _ _ _) as [H cur].
  induction H as [|h H IH]; cbn [flat_map]; [constructor|].
  apply Forall_app. split; [apply be_bytes_small|exact IH].
Qed.

(** The digest is sixty-four lower-case hexadecimal digits. *)
Lemma sha256_hex_shape (content : jsstring) :
  List.length (sha256_hex content) = 64%nat
  /\ Forall is_lower_hex (sha256_hex content).
Proof.
  unfold sha256_hex. split.
  - rewrite hex_length, sha256_length. reflexivity.
  - apply hex_lower, sha256_bytes.
Qed.

Example sha256_constants :
  List.length Sha256.K = 64%nat
  /\ nth 0 Sha256.K 0 = 0x428a2f98 /\ nth 63 Sha256.K 0 = 0xc67178f2
  /\ nth 0 Sha256.H0 0 = 0x6a09e667 /\ nth 7 Sha256.H0 0 = 0x5be0cd19.
Proof. vm_compute. repeat split. Qed.

Example sha256_hex_abc :
  sha256_hex (lit "abc")
  = lit "ba7816bf8f01cfea414140de5dae2223b00361a396177a9cb410ff61f20015ad".
Proof. vm_compute. reflexivity. Qed.

Example sha256_hex_empty :
  sha256_hex []
  = lit "e3b0c44298fc1c149afbf4c8996fb92427ae41e4649b934ca495991b7852b855".
Proof. vm_compute. reflexivity. Qed.

Example sha256_hex_two_blocks :
  sha256_hex (lit "abcdbcdecdefdefgefghfghighijhijkijkljklmklmnlmnomnopnopq")
  = lit "248d6a61d20638b8e5c026930c3e6039a33ce45964ff2167f6ecedd419db06c1".
Proof. vm_compute. reflexivity. Qed.

(** The euro sign, an emoji (a surrogate pair), an overlong lead byte and a
    truncated sequence. *)
Example toString_utf8_sample :
  toString_utf8 [0xE2; 0x82; 0xAC; 0xF0; 0x9F; 0x98; 0x80; 0xC0; 0x41; 0xE2; 0x82]
  = [0x20AC; 0xD83D; 0xDE00; 0xFFFD; 0x41; 0xFFFD].
Proof. vm_compute. reflexivity. Qed.

(** ** Paths *)

Lemma relative_components_app (base segs : Path) :
  relative_components base (base ++ segs) = segs.
Proof.
  induction base as [|b base IH]; simpl.
  - destruct segs; reflexivity.
  - destruct (component_eq_dec b b) as [_|H]; [exact IH|congruence].
Qed.

Lemma relative_app (base segs : Path) :
  relative base (base ++ segs) = render segs.
Proof. unfold relative. rewrite relative_components_app. reflexivity. Qed.

Lemma relative_nil (p : Path) : relative [] p = render p.
Proof. exact (relative_app [] p). Qed.

Lemma strip_prefix_app (base segs : Path) :
  strip_prefix base (base ++ segs) = Some segs.
Proof.
  induction base as [|b base IH]; simpl; [reflexivity|].
  destruct (component_eq_dec b b) as [_|H]; [exact IH|congruence].
Qed.

(** ** Batch construction *)

Section BatchInvariant.

Lemma batchSize_app b1 b2 : batchSize (b1 ++ b2) = batchSize b1 + batchSize b2.
Proof.
  induction b1 as [|e b1 IH]; simpl; [reflexivity|]. rewrite IH. lia.
Qed.

Lemma batchSize_In entry batch :
  In entry batch -> entrySize entry <= batchSize batch.
Proof.
  induction batch as [|e b IH]; simpl; [tauto|].
  intros [->|H]; [lia|]. specialize (IH H). lia.
Qed.

Lemma BatchInv_init : BatchInv [] (mkBatchState [] [] 0).
Proof. constructor; simpl; auto. Qed.

Lemma BatchInv_step seen st entry :
  BatchInv seen st -> BatchInv (seen ++ [entry]) (batchStep st entry).
Proof.
  intros [Hc Hs Hn Hb Hcur]. unfold batchStep. rewrite len_pos.
  assert (Hentry : bounded_or_alone [entry]).
  { destruct (N.le_gt_cases (entrySize entry) MAX_BATCH_BYTES).
    - left. simpl. lia.
    - right. exists entry. auto. }
  destruct (currentBatch st) as [|e0 cur] eqn:Ecur; simpl.
  - (* no running batch: the entry starts one *)
    rewrite Ecur. constructor; simpl; auto.
    + rewrite <- Hc, app_nil_r. reflexivity.
    + rewrite Hs. simpl. lia.
  - destruct (MAX_BATCH_BYTES <? currentSize st + entrySize entry) eqn:Ecmp.
    + (* the running batch is closed *)
      constructor; simpl; auto.
      * rewrite concat_app. simpl. rewrite app_nil_r, <- Hc.
        rewrite <- app_assoc. reflexivity.
      * lia.
      * apply Forall_app. split; [assumption|].
        constructor; [discriminate|constructor].
      * apply Forall_app. split; [assumption|]. constructor; [|constructor].
        destruct Hcur as [Hcur|Hcur]; [discriminate|exact Hcur].
    + (* the entry joins the running batch *)
      apply N.ltb_ge in Ecmp. rewrite Ecur.
      change (e0 :: cur ++ [entry]) with ((e0 :: cur) ++ [entry]).
      constructor; simpl currentBatch; simpl currentSize; simpl batches; auto.
      * rewrite <- Hc. simpl. rewrite <- app_assoc. reflexivity.
      * rewrite Hs. simpl. rewrite batchSize_app. simpl. lia.
      * right. left. simpl. rewrite batchSize_app. simpl in *. lia.
Qed.

Lemma BatchInv_fold entries : forall seen st,
  BatchInv seen st -> BatchInv (seen ++ entries) (fold_left batchStep entries st).
Proof.
  induction entries as [|e entries IH]; intros seen st H; simpl.
  - rewrite app_nil_r. exact H.
  - replace (seen ++ e :: entries) with ((seen ++ [e]) ++ entries)
      by (rewrite <- app_assoc; reflexivity).
    apply IH. apply BatchInv_step. exact H.
Qed.

Lemma BatchInv_flush seen st :
  BatchInv seen st ->
  concat (batchFlush st) = seen
  /\ Forall (fun b => b <> []) (batchFlush st)
  /\ Forall bounded_or_alone (batchFlush st).
Proof.
  intros [Hc Hs Hn Hb Hcur]. unfold batchFlush. rewrite len_pos.
  destruct (currentBatch st) as [|e0 cur] eqn:Ecur; simpl.
  - rewrite app_nil_r in Hc. auto.
  - repeat split.
    + rewrite concat_app. simpl. rewrite app_nil_r. exact Hc.
    + apply Forall_app. split; [assumption|].
      constructor; [discriminate|constructor].
    + apply Forall_app. split; [assumption|]. constructor; [|constructor].
      destruct Hcur as [Hcur|Hcur]; [discriminate|exact Hcur].
Qed.

Lemma buildBatches_spec allEntries :
  concat (buildBatches allEntries) = allEntries
  /\ Forall (fun b => b <> []) (buildBatches allEntries)
  /\ Forall bounded_or_alone (buildBatches allEntries).
Proof.
  unfold buildBatches. apply BatchInv_flush.
  change allEntries with ([] ++ allEntries) at 1.
  apply BatchInv_fold, BatchInv_init.
Qed.

End BatchInvariant.

(** C2.  Every batch that [buildBatches] produces has an estimated size
    (the sum, over its entries, of the UTF-8 length of the content plus the
    per-entry overhead) of at most [MAX_BATCH_BYTES] = 4 MiB, unless it is a
    single entry whose own estimated size exceeds that ceiling. *)
Theorem batch_size_bound (allEntries : list FileEntry) :
  MAX_BATCH_BYTES = 4194304
  /\ Forall
       (fun batch =>
          batchSize batch <= MAX_BATCH_BYTES
          \/ exists entry, batch = [entry] /\ MAX_BATCH_BYTES < entrySize entry)
       (buildBatches allEntries).
Proof. split; [reflexivity|]. apply buildBatches_spec. Qed.

(** C4.  Batch construction is an order-preserving partition: the batches
    concatenated in order are the input sequence, and no batch is empty. *)
Theorem batches_partition (allEntries : list FileEntry) :
  concat (buildBatches allEntries) = allEntries
  /\ Forall (fun batch => batch <> []) (buildBatches allEntries).
Proof.
  destruct (buildBatches_spec allEntries) as (H1 & H2 & _). split; assumption.
Qed.

(** C3.  An entry whose estimated size alone exceeds the ceiling is the only
    element of its batch: some batch is exactly that entry (it is not
    dropped), and every batch holding it holds nothing else. *)
Theorem oversized_entry_alone (allEntries : list FileEntry) (entry : FileEntry) :
  In entry allEntries ->
  MAX_BATCH_BYTES < entrySize entry ->
  In [entry] (buildBatches allEntries)
  /\ forall batch,
       In batch (buildBatches allEntries) -> In entry batch -> batch = [entry].
Proof.
  intros Hin Hbig.
  destruct (buildBatches_spec allEntries) as (Hcat & _ & Hb).
  assert (Halone : forall batch,
             In batch (buildBatches allEntries) -> In entry batch ->
             batch = [entry]).
  { intros batch Hbatch He.
    rewrite Forall_forall in Hb. destruct (Hb _ Hbatch) as [Hle|(e' & -> & _)].
    - pose proof (batchSize_In _ _ He). lia.
    - destruct He as [->|[]]. reflexivity. }
  split; [|exact Halone].
  rewrite <- Hcat in Hin. apply in_concat in Hin.
  destruct Hin as (batch & Hbatch & He).
  rewrite <- (Halone batch Hbatch He). exact Hbatch.
Qed.

Lemma bigEntry_oversized : MAX_BATCH_BYTES < entrySize bigEntry.
Proof.
  unfold entrySize, bigEntry. cbn [content file_path file_hash].
  rewrite byteLength_repeat_ascii by reflexivity.
  rewrite N2Nat.id. unfold strlen. lia.
Qed.

Lemma oversized_entry_alone_witness :
  In [bigEntry] (buildBatches [entryA; bigEntry; entryB])
  /\ forall batch,
       In batch (buildBatches [entryA; bigEntry; entryB]) ->
       In bigEntry batch -> batch = [bigEntry].
Proof.
  apply (oversized_entry_alone [entryA; bigEntry; entryB] bigEntry).
  - right. left. reflexivity.
  - exact bigEntry_oversized.
Defined.

Example small_entries_share_a_batch :
  buildBatches [entryA; entryB; entryC] = [[entryA; entryB; entryC]].
Proof. vm_compute. reflexivity. Qed.

(** ** The admission filter *)

Lemma includes_subarray0_iff (n : N) (buf : Buffer) :
  includes 0 (subarray0 n buf) = true
  <-> exists i : N, i < n /\ nth_error buf (N.to_nat i) = Some 0.
Proof.
  unfold includes, subarray0. rewrite existsb_exists. split.
  - intros (x & Hin & Hx). apply N.eqb_eq in Hx. subst x.
    apply In_nth_error in Hin. destruct Hin as (i & Hi).
    rewrite nth_error_firstn in Hi.
    destruct (Nat.ltb i (N.to_nat n)) eqn:E; [|discriminate].
    apply Nat.ltb_lt in E. exists (N.of_nat i).
    rewrite Nat2N.id. split; [lia|exact Hi].
  - intros (i & Hi & Hnth). exists 0. split; [|reflexivity].
    apply nth_error_In with (N.to_nat i). rewrite nth_error_firstn.
    assert (E : Nat.ltb (N.to_nat i) (N.to_nat n) = true)
      by (apply Nat.ltb_lt; lia).
    rewrite E. exact Hnth.
Qed.

(** C5.  A file that was read is excluded when one of its first 8192 bytes
    is zero, and excluded when its content decoded as UTF-8 is whitespace
    only (empty after [trim]); otherwise it yields an entry whose content is
    the decoded text, whose hash is the SHA-256 digest of that text written
    as sixty-four lower-case hexadecimal digits, and whose path is the path
    of the file relative to the base directory. *)
Theorem admission_filter (baseDir filePath : Path) (buf : Buffer) :
  match admitFile baseDir filePath (Ok buf) with
  | None =>
      null_in_first_8K buf \/ whitespace_only (toString_utf8 buf)
  | Some entry =>
      ~ null_in_first_8K buf
      /\ ~ whitespace_only (toString_utf8 buf)
      /\ content entry = toString_utf8 buf
      /\ file_hash entry
         = Sha256.hex (Sha256.sha256 (utf8_encode (toString_utf8 buf)))
      /\ List.length (file_hash entry) = 64%nat
      /\ Forall is_lower_hex (file_hash entry)
      /\ file_path entry = relative baseDir filePath
  end.
Proof.
  unfold admitFile.
  destruct (includes 0 (subarray0 8192 buf)) eqn:Enull.
  - left. apply includes_subarray0_iff in Enull. exact Enull.
  - destruct (falsy (trim (toString_utf8 buf))) eqn:Ews.
    + right. apply trim_nil_iff, falsy_nil. exact Ews.
    + cbn [content file_hash file_path].
      destruct (sha256_hex_shape (toString_utf8 buf)) as [Hlen Hhex].
      repeat split; try assumption; try reflexivity.
      * intros H. apply (includes_subarray0_iff 8192) in H. congruence.
      * intros H. apply trim_nil_iff, falsy_nil in H. congruence.
Qed.

(** A file that cannot be read is skipped. *)
Lemma unreadable_file_skipped baseDir filePath e :
  admitFile baseDir filePath (Throw e) = None.
Proof. reflexivity. Qed.

(** The path of an entry found below the base directory is made of its
    components below it. *)
Lemma admitted_path baseDir segs buf entry :
  admitFile baseDir (baseDir ++ segs) (Ok buf) = Some entry ->
  file_path entry = render segs.
Proof.
  unfold admitFile. destruct (includes _ _); [discriminate|].
  destruct (falsy _); [discriminate|]. intros [= <-].
  cbn [file_path]. apply relative_app.
Qed.

(** ** The directory walk *)

(** The walk reads the tree through paths relative to [baseDir] only: the
    same tree below another base directory gives the same paths, moved. *)
Lemma walkDirectory_relocate (ig : Ignore) (b : Path) (d : node) :
  forall pre,
    walkDirectory ig b (b ++ pre) d = relocate b (walkDirectory ig [] pre d).
Proof.
  induction d as [| | |entries IH] using node_tree_ind; intros pre;
    try reflexivity.
  cbn [walkDirectory].
  induction entries as [|[name n] rest IHrest]; [reflexivity|].
  inversion IH as [|? ? Hn Hrest]; subst. specialize (IHrest Hrest).
  cbn [walkLoop]. fold (walkLoop (walkDirectory ig b) ig b (b ++ pre)).
  fold (walkLoop (walkDirectory ig []) ig [] pre).
  assert (Hjoin : join (b ++ pre) name = b ++ join pre name)
    by (unfold join; rewrite <- app_assoc; reflexivity).
  rewrite Hjoin, (relative_app b (join pre name)), (relative_nil (join pre name)).
  destruct (ignores ig (render (join pre name))); [exact IHrest|].
  destruct n as [st data|listing|]; [| |exact IHrest].
  - destruct st as [size|e]; [|reflexivity]. cbn [bind].
    rewrite IHrest. destruct (walkLoop _ ig [] pre rest); [|reflexivity].
    cbn [bind relocate]. destruct (size <=? MAX_FILE_SIZE); reflexivity.
  - destruct (negb _); [|exact IHrest].
    cbn [snd] in Hn. rewrite Hn, IHrest.
    destruct (walkDirectory ig [] (join pre name) (Dir listing)); [|reflexivity].
    cbn [bind relocate].
    destruct (walkLoop _ ig [] pre rest); [|reflexivity].
    cbn [bind relocate]. rewrite map_app. reflexivity.
Qed.

Section WalkVisible.

Variable ig : Ignore.

Lemma visible_entries pre entries p :
  visible ig pre (Dir (Ok entries)) p
  <-> exists name n, In (name, n) entries /\ contributes ig pre name n p.
Proof.
  split.
  - inversion 1; subst.
    + exists name, (File (Ok size) data). split; [assumption|].
      split; [assumption|]. left. eauto.
    + exists name, sub. split; [assumption|]. split; [assumption|].
      right. split; assumption.
  - intros (name & n & Hin & Hign & [(size & data & -> & Hsize & ->)|[Hslash Hv]]).
    + eapply visible_file; eauto.
    + eapply visible_dir; eauto.
Qed.

Lemma visible_cons pre name n rest p :
  visible ig pre (Dir (Ok ((name, n) :: rest))) p
  <-> contributes ig pre name n p \/ visible ig pre (Dir (Ok rest)) p.
Proof.
  rewrite !visible_entries. split.
  - intros (name' & n' & [E|Hin] & Hc).
    + inversion E; subst. left. exact Hc.
    + right. eauto.
  - intros [Hc|(name' & n' & Hin & Hc)].
    + exists name, n. split; [left; reflexivity|exact Hc].
    + exists name', n'. split; [right; exact Hin|exact Hc].
Qed.

Lemma visible_nil pre p : ~ visible ig pre (Dir (Ok [])) p.
Proof. rewrite visible_entries. intros (? & ? & [] & _). Qed.

Lemma walkDirectory_visible (d : node) :
  forall pre rels,
    walkDirectory ig [] pre d = Ok rels ->
    forall p, In p rels <-> visible ig pre d p.
Proof.
  induction d as [| | |entries IH] using node_tree_ind; intros pre rels;
    try discriminate.
  cbn [walkDirectory]. revert rels.
  induction entries as [|[name n] rest IHrest]; intros rels Hwalk p.
  - injection Hwalk as <-. split; [intros []|intros H; exact (visible_nil _ _ H)].
  - inversion IH as [|? ? Hn Hrest]; subst. specialize (IHrest Hrest).
    cbn [snd] in Hn. rewrite visible_cons.
    cbn [walkLoop] in Hwalk. fold (walkLoop (walkDirectory ig []) ig [] pre) in Hwalk.
    rewrite (relative_nil (join pre name)) in Hwalk. unfold join in Hwalk.
    unfold contributes.
    destruct (ignores ig (render (pre ++ [name]))) eqn:Eign.
    { rewrite (IHrest _ Hwalk p). split; [auto|]. intros [[? _]|H]; [discriminate|exact H]. }
    destruct n as [st data|listing|].
    + (* a regular file *)
      destruct st as [size|e]; [|discriminate]. cbn [bind] in Hwalk.
      destruct (walkLoop _ ig [] pre rest) as [more|e] eqn:Emore; [|discriminate].
      cbn [bind] in Hwalk. injection Hwalk as <-.
      specialize (IHrest more eq_refl p).
      destruct (size <=? MAX_FILE_SIZE) eqn:Esize.
      * apply N.leb_le in Esize. simpl. rewrite IHrest. split.
        -- intros [<-|H]; [left|right; exact H].
           split; [reflexivity|]. left. eauto.
        -- intros [[_ [(s & dt & E & _ & ->)|[_ Hv]]]|H]; [left; reflexivity| |right; exact H].
           inversion Hv.
      * apply N.leb_gt in Esize. rewrite IHrest. split; [auto|].
        intros [[_ [(s & dt & E & Hs & _)|[_ Hv]]]|H]; [| |exact H].
        -- injection E as <- _. lia.
        -- inversion Hv.
    + (* a directory *)
      destruct (ignores ig (render (pre ++ [name]) ++ lit "/")) eqn:Eslash;
        cbn [negb] in Hwalk.
      { rewrite (IHrest _ Hwalk p). split; [auto|].
        intros [[_ [(s & dt & E & _)|[? _]]]|H]; [discriminate|discriminate|exact H]. }
      destruct (walkDirectory ig [] (pre ++ [name]) (Dir listing)) as [sub|e] eqn:Esub;
        [|discriminate].
      cbn [bind] in Hwalk.
      destruct (walkLoop _ ig [] pre rest) as [more|e] eqn:Emore; [|discriminate].
      cbn [bind] in Hwalk. injection Hwalk as <-.
      rewrite in_app_iff, (Hn _ _ Esub p), (IHrest more eq_refl p). split.
      * intros [H|H]; [left|right; exact H]. split; [reflexivity|]. right. auto.
      * intros [[_ [(s & dt & E & _)|[_ Hv]]]|H]; [discriminate|left; exact Hv|right; exact H].
    + (* neither: skipped *)
      rewrite (IHrest _ Hwalk p). split; [auto|].
      intros [[_ [(s & dt & E & _)|[_ Hv]]]|H]; [discriminate|inversion Hv|exact H].
Qed.

(** Every ancestor directory of a visible file passed both tests, and the
    file itself the first. *)
Lemma visible_not_ignored pre d p :
  visible ig pre d p ->
  exists segs,
    p = pre ++ segs /\ segs <> []
    /\ ignores ig (render p) = false
    /\ forall q r, segs = q ++ r -> q <> [] -> r <> [] ->
         ignores ig (render (pre ++ q)) = false
         /\ ignores ig (render (pre ++ q) ++ lit "/") = false.
Proof.
  induction 1 as [pre entries name size data Hin Hign Hsize
                 |pre entries name sub p Hin Hign Hslash Hv IH].
  - exists [name]. repeat split; try assumption; try discriminate.
    all: destruct q as [|q0 [|q1 q]]; destruct r; simpl in *; congruence.
  - destruct IH as (segs & -> & Hne & Hp & Hanc).
    exists (name :: segs). rewrite <- app_assoc in *. simpl in *.
    split; [reflexivity|]. split; [discriminate|]. split; [exact Hp|].
    intros q r E Hq Hr. destruct q as [|q0 q]; [congruence|].
    simpl in E. injection E as <- ->.
    destruct q as [|q1 q].
    + split; assumption.
    + specialize (Hanc (q1 :: q) r eq_refl ltac:(discriminate) Hr).
      rewrite <- app_assoc in Hanc. exact Hanc.
Qed.

End WalkVisible.


(** X10.  On a tree with nothing unreadable the walk of a directory
    returns. *)
Lemma walk_returns (ig : Ignore) (baseDir : Path) (d : node) :
  forall dir listing,
    d = Dir listing -> readable d = true ->
    exists files, walkDirectory ig baseDir dir d = Ok files.
Proof.
  induction d as [| | |entries IH] using node_tree_ind;
    intros dir listing E Hr; try discriminate.
  clear E listing. cbn [walkDirectory]. cbn [readable] in Hr.
  induction entries as [|[name n] rest IHrest]; [exists []; reflexivity|].
  inversion IH as [|? ? Hn Hrest]; subst. cbn [snd] in Hn.
  cbn [forallb snd] in Hr. apply andb_true_iff in Hr. destruct Hr as [Hrn Hrr].
  destruct (IHrest Hrest Hrr) as (more & Hmore).
  cbn [walkLoop]. fold (walkLoop (walkDirectory ig baseDir) ig baseDir dir).
  rewrite Hmore.
  destruct (ignores ig (relative baseDir (join dir name))); [eauto|].
  destruct n as [[size|e] data|listing|]; try discriminate; cbn [bind]; eauto.
  destruct (negb _); [|eauto].
  destruct (Hn (join dir name) listing eq_refl Hrn) as (sub & Hsub).
  rewrite Hsub. cbn [bind]. eauto.
Qed.

(** C7.  When the walk of the base directory returns, the paths returned
    are exactly the files that are [visible]: regular files that the ignore
    predicate does not match, of at most [MAX_FILE_SIZE] = 512 KiB, below
    directories that were all descended into.  No returned file lies below
    a directory whose relative path is ignored, bare or with a trailing
    slash, and no returned file is ignored itself. *)
Theorem walk_result (ig : Ignore) (baseDir : Path) (d : node) (files : list Path) :
  walkDirectory ig baseDir baseDir d = Ok files ->
  MAX_FILE_SIZE = 524288
  /\ (forall p,
        In p files <-> exists segs, p = baseDir ++ segs /\ visible ig [] d segs)
  /\ (forall segs,
        In (baseDir ++ segs) files ->
        ignores ig (render segs) = false
        /\ forall q r, segs = q ++ r -> q <> [] -> r <> [] ->
             ignores ig (render q) = false
             /\ ignores ig (render q ++ lit "/") = false).
Proof.
  intros Hwalk. split; [reflexivity|].
  pose proof (walkDirectory_relocate ig baseDir d []) as Hrel.
  rewrite app_nil_r, Hwalk in Hrel.
  destruct (walkDirectory ig [] [] d) as [rels|e] eqn:Erels; [|discriminate].
  injection Hrel as ->.
  assert (Hiff : forall p,
             In p (map (app baseDir) rels)
             <-> exists segs, p = baseDir ++ segs /\ visible ig [] d segs).
  { intros p. rewrite in_map_iff. split.
    - intros (segs & <- & Hin). exists segs. split; [reflexivity|].
      apply (walkDirectory_visible ig d [] rels Erels). exact Hin.
    - intros (segs & -> & Hv). exists segs. split; [reflexivity|].
      apply (walkDirectory_visible ig d [] rels Erels). exact Hv. }
  split; [exact Hiff|].
  intros segs Hin. apply Hiff in Hin. destruct Hin as (segs' & E & Hv).
  apply app_inv_head in E. subst segs'.
  destruct (visible_not_ignored ig [] d segs Hv) as (s & E & _ & Hp & Hanc).
  simpl in E. subst s. split; [exact Hp|]. exact Hanc.
Qed.

Lemma walk_result_witness :
  MAX_FILE_SIZE = 524288
  /\ (forall p,
        In p [sampleBase ++ [lit "a.txt"]; sampleBase ++ [lit "b.bin"];
              sampleBase ++ [lit "empty.txt"]]
        <-> exists segs,
              p = sampleBase ++ segs /\ visible literalIgnore [] sampleTree segs)
  /\ (forall segs,
        In (sampleBase ++ segs)
           [sampleBase ++ [lit "a.txt"]; sampleBase ++ [lit "b.bin"];
            sampleBase ++ [lit "empty.txt"]] ->
        ignores literalIgnore (render segs) = false
        /\ forall q r, segs = q ++ r -> q <> [] -> r <> [] ->
             ignores literalIgnore (render q) = false
             /\ ignores literalIgnore (render q ++ lit "/") = false).
Proof.
  apply (walk_result literalIgnore sampleBase sampleTree).
  vm_compute. reflexivity.
Defined.

(** A directory that is ignored, bare or with a trailing slash, is not
    read: the walk goes on as if the entry were not there, whatever the
    directory holds. *)
Lemma ignored_directory_not_read walk ig baseDir dir name listing rest :
  ignores ig (relative baseDir (join dir name)) = true
  \/ ignores ig (relative baseDir (join dir name) ++ lit "/") = true ->
  walkLoop walk ig baseDir dir ((name, Dir listing) :: rest)
  = walkLoop walk ig baseDir dir rest.
Proof.
  intros H. cbn [walkLoop].
  destruct (ignores ig (relative baseDir (join dir name))); [reflexivity|].
  destruct H as [H|H]; [discriminate|]. rewrite H. reflexivity.
Qed.

(** The unreadable directory inside [node_modules] is never reached. *)
Example ignored_directory_trap :
  walkDirectory literalIgnore sampleBase sampleBase trappedTree
  = Ok [sampleBase ++ [lit "a.txt"]].
Proof. vm_compute. reflexivity. Qed.

(** X11.  A directory that is not ignored and cannot be read makes the walk
    of the directory that lists it throw. *)
Lemma unreadable_directory_throws ig baseDir dir entries name e :
  In (name, Dir (Throw e)) entries ->
  ignores ig (relative baseDir (join dir name)) = false ->
  ignores ig (relative baseDir (join dir name) ++ lit "/") = false ->
  exists e', walkDirectory ig baseDir dir (Dir (Ok entries)) = Throw e'.
Proof.
  intros Hin Hbare Hslash. cbn [walkDirectory].
  induction entries as [|[name0 n0] rest IH]; [destruct Hin|].
  cbn [walkLoop]. fold (walkLoop (walkDirectory ig baseDir) ig baseDir dir).
  destruct Hin as [E|Hin].
  - injection E as -> ->. rewrite Hbare, Hslash. cbn. exists e. reflexivity.
  - destruct (IH Hin) as (e' & He'). rewrite He'.
    destruct (ignores ig (relative baseDir (join dir name0))); [eauto|].
    destruct n0 as [st data|listing|]; [| |eauto].
    + destruct st as [size|e0]; cbn; eauto.
    + destruct (negb _); [|eauto].
      destruct (walkDirectory ig baseDir (join dir name0) (Dir listing));
        cbn; eauto.
Qed.

(** C6 (the code does otherwise).  With one unreadable directory beside
    [a.txt], the walk throws the error of [readdirSync]: no file is returned,
    the command prints the error and exits with status 1 before any request.
    The tree walk of the bootstrap command, which guards the same call,
    lists the readable entries. *)
Theorem unreadable_directory_aborts_walk :
  walkDirectory literalIgnore sampleBase sampleBase guardedTree = Throw EACCES
  /\ indexAction (rejectLargerThan 100) literalPackage (sampleWorld tt guardedTree)
     = (worldOf tt guardedTree [] (Some sampleConfig)
                [ConsoleError "EACCES: permission denied"],
        Exit1)
  /\ walkDirectoryForTree literalIgnore sampleBase 0 4 sampleBase guardedTree
     = [lit "a.txt"; lit "b.bin"; lit "empty.txt"; lit "secret/"].
Proof. vm_compute. repeat split. Qed.

(** The end-to-end scenario of the specification: of [a.txt], [b.bin],
    [empty.txt] and [node_modules/x.js], one entry is uploaded. *)
Example index_sample_tree :
  scanEntries literalPackage (mkFileSystem sampleBase sampleTree) = Ok [entryA]
  /\ snd (indexAction (rejectLargerThan 100) literalPackage
            (sampleWorld tt sampleTree)) = Returned
  /\ map payload
       (sent (fst (indexAction (rejectLargerThan 100) literalPackage
                     (sampleWorld tt sampleTree))))
     = [FilesPayload [entryA]].
Proof. vm_compute. repeat split. Qed.

(** ** The client *)

Section ClientFacts.

Variable ServerState : Type.
Variable serve : ServerState -> Request -> ServerState * Reply.

(** What [dispatch] does to the world: the server moves, the request is
    recorded, nothing else changes. *)
Lemma dispatch_spec m u data (w : World ServerState) :
  dispatch serve m u data w
  = (mkWorld (fs w) (local_projectId w)
             (fst (serve (server w) (outgoing m u data w)))
             (sent w ++ [outgoing m u data w])
             (config_file w) (config_write w) (env_token w) (console w),
     settle (snd (serve (server w) (outgoing m u data w)))).
Proof. unfold dispatch. destruct (serve _ _) as [s' reply]. reflexivity. Qed.

(** Whatever the interceptor throws has no [response] property. *)
Lemma onRejected_no_response error (w : World ServerState) :
  response_status_of (snd (onRejected error w)) = None.
Proof.
  unfold onRejected. destruct (string_in _ _); [reflexivity|].
  destruct (status_is _ 401).
  { unfold clearAuth, saveGlobalConfig. cbn [config_write].
    destruct (config_write w); reflexivity. }
  destruct (status_is _ 422); reflexivity.
Qed.

(** A request, whatever becomes of it, adds itself to the requests sent. *)
Lemma request_sent m u data (w : World ServerState) :
  sent (fst (request serve m u data w)) = sent w ++ [outgoing m u data w].
Proof.
  unfold request. rewrite dispatch_spec.
  destruct (settle _) as [response|error]; [reflexivity|].
  unfold onRejected. destruct (string_in _ _); [reflexivity|].
  destruct (status_is _ 401).
  { unfold clearAuth, saveGlobalConfig. cbn [config_write].
    destruct (config_write w); reflexivity. }
  destruct (status_is _ 422); reflexivity.
Qed.

Lemma request_no_response m u data (w w' : World ServerState) err :
  request serve m u data w = (w', Throw err) ->
  response_status_of err = None.
Proof.
  unfold request. destruct (dispatch serve m u data w) as [w1 [response|error]].
  - discriminate.
  - pose proof (onRejected_no_response error w1) as H.
    destruct (onRejected error w1) as [w2 err']. intros [= <- <-]. exact H.
Qed.

(** With the client of [createApiClient], a failed submission is rethrown
    as it is: the status test of the [catch] clause never holds. *)
Lemma submitBatch_createApiClient projectId batch (w : World ServerState) :
  submitBatch (createApiClient serve) projectId batch w
  = match request serve POST (CodebaseIndexUrl projectId) (FilesPayload batch) w with
    | (w', Ok _) => (w', Ok tt)
    | (w', Throw err) => (w', Throw err)
    end.
Proof.
  unfold submitBatch, catch, bindM. cbn [post createApiClient].
  destruct (request serve POST _ _ w) as [w' [response|err]] eqn:E; [reflexivity|].
  rewrite (request_no_response _ _ _ _ _ _ E). reflexivity.
Qed.

(** C1 (the code does otherwise).  When the server answers 413 to the
    submission of a batch, of whatever length, the client of
    [createApiClient] throws an [ApiError]; the [catch] clause finds no
    [response] on it and throws it again.  The batch was sent once, no half
    is sent, and the run ends there. *)
Theorem too_large_rejection_is_fatal projectId batch (w : World ServerState)
    s' body :
  serve (server w)
        (outgoing POST (CodebaseIndexUrl projectId) (FilesPayload batch) w)
    = (s', HttpResponse 413 body) ->
  exists w1 message,
    submitBatch (createApiClient serve) projectId batch w
      = (w1, Throw (ApiError message 413 body))
    /\ server w1 = s'
    /\ sent w1
       = sent w ++ [outgoing POST (CodebaseIndexUrl projectId)
                             (FilesPayload batch) w].
Proof.
  intros Hserve.
  rewrite submitBatch_createApiClient. unfold request.
  rewrite dispatch_spec, Hserve. cbn.
  eexists. eexists. split; [reflexivity|]. split; reflexivity.
Qed.


End ClientFacts.

(** ** The upload loop *)

Section UploadFacts.

Variable ServerState : Type.
Variable api : ApiClient ServerState.
Variable projectId : N.

Lemma uploadBatches_app before after indexed (w : World ServerState) :
  uploadBatches api projectId (before ++ after) indexed w
  = match uploadBatches api projectId before indexed w with
    | (w1, Ok n) => uploadBatches api projectId after n w1
    | (w1, Throw err) => (w1, Throw err)
    end.
Proof.
  revert indexed w. induction before as [|b before IH]; intros indexed w.
  - reflexivity.
  - cbn [app uploadBatches]. unfold bindM.
    destruct (submitBatch api projectId b w) as [w1 [[]|err]]; [apply IH|reflexivity].
Qed.

Lemma submitBatch_rethrows batch (w w' : World ServerState) err :
  post api (CodebaseIndexUrl projectId) (FilesPayload batch) w = (w', Throw err) ->
  ~ (response_status_of err = Some 413 /\ 1 < len batch) ->
  submitBatch api projectId batch w = (w', Throw err).
Proof.
  intros Hpost Hnot. unfold submitBatch, catch, bindM. rewrite Hpost.
  destruct (status_is (response_status_of err) 413 && (1 <? len batch)) eqn:E;
    [|reflexivity].
  exfalso. apply Hnot. apply andb_true_iff in E. destruct E as [E1 E2].
  apply N.ltb_lt in E2. split; [|exact E2].
  destruct (response_status_of err) as [s|]; [|discriminate].
  apply N.eqb_eq in E1. congruence.
Qed.

Lemma handleError_console err (w : World ServerState) :
  exists more,
    console (fst (handleError err w))
    = console w ++ ConsoleError (message_of err) :: more.
Proof.
  assert (Hlines : forall lines (w0 : World ServerState),
             console (fst (print_lines lines w0)) = console w0 ++ lines).
  { induction lines as [|l lines IH]; intros w0; cbn.
    - rewrite app_nil_r. reflexivity.
    - unfold bindM. cbn. rewrite IH. cbn. rewrite <- app_assoc. reflexivity. }
  unfold handleError, bindM. cbn [print].
  destruct err; cbn; try (exists []; reflexivity).
  eexists. rewrite Hlines. cbn. rewrite <- app_assoc. reflexivity.
Qed.

(** The loop alone, for any client.  When the batches before batch [i] were
    submitted and the submission of batch [i] throws an error that is not a
    413 on a batch of more than one entry, the loop throws that error at
    once: the world it leaves is the one the failed submission left, so no
    later batch is submitted and nothing sent before is sent again or
    undone; [handleError] prints the message of such an error. *)
Lemma failed_batch_ends_the_loop before batch after indexed
    (w0 w1 w2 : World ServerState) n err :
  uploadBatches api projectId before indexed w0 = (w1, Ok n) ->
  post api (CodebaseIndexUrl projectId) (FilesPayload batch) w1 = (w2, Throw err) ->
  ~ (response_status_of err = Some 413 /\ 1 < len batch) ->
  uploadBatches api projectId (before ++ batch :: after) indexed w0
    = (w2, Throw err)
  /\ exists more,
       console (fst (handleError err w2))
       = console w2 ++ ConsoleError (message_of err) :: more.
Proof.
  intros Hbefore Hpost Hnot. split; [|apply handleError_console].
  rewrite uploadBatches_app, Hbefore. cbn [uploadBatches]. unfold bindM.
  rewrite (submitBatch_rethrows _ _ _ _ Hpost Hnot). reflexivity.
Qed.

End UploadFacts.

(** With the client of [createApiClient] every failed submission ends the
    loop, a 413 on a batch of several entries included, and the failed
    request is the last one sent. *)
Lemma failed_submission_is_last_request {ServerState : Type}
    (serve : ServerState -> Request -> ServerState * Reply)
    projectId before batch after indexed (w0 w1 w2 : World ServerState) n err :
  uploadBatches (createApiClient serve) projectId before indexed w0 = (w1, Ok n) ->
  request serve POST (CodebaseIndexUrl projectId) (FilesPayload batch) w1
    = (w2, Throw err) ->
  uploadBatches (createApiClient serve) projectId (before ++ batch :: after)
                indexed w0
    = (w2, Throw err)
  /\ sent w2
     = sent w1 ++ [outgoing POST (CodebaseIndexUrl projectId)
                            (FilesPayload batch) w1].
Proof.
  intros Hbefore Hreq. split.
  - rewrite uploadBatches_app, Hbefore. cbn [uploadBatches]. unfold bindM.
    rewrite submitBatch_createApiClient, Hreq. reflexivity.
  - pose proof (request_sent _ serve POST (CodebaseIndexUrl projectId)
                  (FilesPayload batch) w1) as H.
    rewrite Hreq in H. exact H.
Qed.

(** ** Two runs over one tree *)

Section Relocation.

Variable tree : node.
Variable b : Path.

Lemma resolve_relocate segs :
  resolve (mkFileSystem b tree) (b ++ segs) = resolve (mkFileSystem [] tree) segs.
Proof. unfold resolve. cbn [cwd root]. rewrite strip_prefix_app. reflexivity. Qed.

Lemma readFileSync_relocate segs :
  readFileSync (mkFileSystem b tree) (b ++ segs)
  = readFileSync (mkFileSystem [] tree) segs.
Proof. unfold readFileSync. rewrite resolve_relocate. reflexivity. Qed.

Lemma addFileIfExists_relocate pkg name ig :
  addFileIfExists pkg (mkFileSystem b tree) (join b name) ig
  = addFileIfExists pkg (mkFileSystem [] tree) (join [] name) ig.
Proof.
  unfold addFileIfExists, existsSync, readFileSync_utf8, join.
  rewrite readFileSync_relocate, resolve_relocate. reflexivity.
Qed.

Lemma loadGitignore_relocate pkg :
  loadGitignore pkg (mkFileSystem b tree) b
  = loadGitignore pkg (mkFileSystem [] tree) [].
Proof.
  unfold loadGitignore. rewrite addFileIfExists_relocate.
  destruct (addFileIfExists pkg _ (join [] _) _) as [ig|e]; [|reflexivity].
  cbn [bind]. rewrite addFileIfExists_relocate. reflexivity.
Qed.

Lemma readEntries_relocate rels :
  readEntries (mkFileSystem b tree) b (map (app b) rels)
  = readEntries (mkFileSystem [] tree) [] rels.
Proof.
  unfold readEntries. induction rels as [|r rels IH]; [reflexivity|].
  cbn [map flat_map]. rewrite IH, readFileSync_relocate.
  unfold admitFile. rewrite (relative_app b r), (relative_nil r). reflexivity.
Qed.

Lemma scanEntries_relocate pkg :
  scanEntries pkg (mkFileSystem b tree) = scanEntries pkg (mkFileSystem [] tree).
Proof.
  unfold scanEntries. cbn [cwd root]. rewrite loadGitignore_relocate.
  destruct (loadGitignore pkg _ []) as [ig|e]; [|reflexivity]. cbn [bind].
  pose proof (walkDirectory_relocate ig b tree []) as H.
  rewrite app_nil_r in H. rewrite H.
  destruct (walkDirectory ig [] [] tree) as [rels|e]; [|reflexivity].
  cbn [relocate bind]. rewrite readEntries_relocate. reflexivity.
Qed.

End Relocation.

(** C9.  The walk followed by the admission filter depends on the tree
    only: two runs over the same tree (the same entries in the same listing
    order, with the same contents) give the same result, entry for entry in
    the same order with the same paths, hashes and contents, wherever the
    tree is mounted; when one run throws, the other throws the same. *)
Theorem scan_deterministic (pkg : IgnorePackage) (fs1 fs2 : FileSystem) :
  root fs1 = root fs2 -> scanEntries pkg fs1 = scanEntries pkg fs2.
Proof.
  destruct fs1 as [b1 t1], fs2 as [b2 t2]. cbn [root]. intros <-.
  rewrite (scanEntries_relocate t1 b1), (scanEntries_relocate t1 b2).
  reflexivity.
Qed.

Lemma scan_deterministic_witness :
  scanEntries literalPackage (mkFileSystem sampleBase sampleTree)
  = scanEntries literalPackage (mkFileSystem [lit "tmp"; lit "copy"] sampleTree).
Proof.
  apply (scan_deterministic literalPackage
           (mkFileSystem sampleBase sampleTree)
           (mkFileSystem [lit "tmp"; lit "copy"] sampleTree)).
  reflexivity.
Defined.

(** ** Sample runs of the client and of the loop *)

(** The synthetic server of the specification with N = 1 and a batch of
    two entries: one submission, answered 413, and the run is over. *)
Lemma too_large_rejection_is_fatal_witness :
  exists w1 message,
    submitBatch (createApiClient (rejectLargerThan 1)) 7 [entryA; entryB]
                (sampleWorld tt sampleTree)
      = (w1, Throw (ApiError message 413 None))
    /\ server w1 = tt
    /\ sent w1
       = sent (sampleWorld tt sampleTree)
           ++ [outgoing POST (CodebaseIndexUrl 7) (FilesPayload [entryA; entryB])
                        (sampleWorld tt sampleTree)].
Proof.
  apply (too_large_rejection_is_fatal unit (rejectLargerThan 1) 7
           [entryA; entryB] (sampleWorld tt sampleTree) tt None).
  reflexivity.
Defined.

(** The same run, written out: one request, the error of the client, and
    for the whole command an error line and exit status 1. *)
Example too_large_rejection_sample :
  submitBatch (createApiClient (rejectLargerThan 1)) 7 [entryA; entryB]
              (sampleWorld tt sampleTree)
  = (worldOf tt sampleTree [sampleUpload [entryA; entryB]] (Some sampleConfig) [],
     Throw (ApiError "Request failed with status code 413" 413 None)).
Proof. reflexivity. Qed.

(** The [catch] clause as it is written works with a client that rethrows
    what axios made: the batch, then its two halves. *)
Example bare_client_splits :
  submitBatch (bareClient (rejectLargerThan 1)) 7 [entryA; entryB]
              (sampleWorld tt sampleTree)
  = (worldOf tt sampleTree
             [sampleUpload [entryA; entryB]; sampleUpload [entryA];
              sampleUpload [entryB]]
             (Some sampleConfig) [],
     Ok tt).
Proof. reflexivity. Qed.

(** X7.  The two halves of a batch, put back together, are the batch, and
    both are non-empty when the batch has more than one entry. *)
Lemma halves_partition {A} (batch : list A) :
  slice_to (ceil_half (len batch)) batch
    ++ slice_from (ceil_half (len batch)) batch = batch
  /\ (1 < len batch ->
      slice_to (ceil_half (len batch)) batch <> []
      /\ slice_from (ceil_half (len batch)) batch <> []).
Proof.
  unfold slice_to, slice_from. split; [apply firstn_skipn|].
  intros Hlen. unfold len, ceil_half in *.
  set (n := List.length batch) in *.
  assert (Hmid : (0 < N.to_nat ((N.of_nat n + 1) / 2) < n)%nat).
  { assert (H1 : 1 <= (N.of_nat n + 1) / 2)
      by (apply N.div_le_lower_bound; lia).
    assert (H2 : (N.of_nat n + 1) / 2 < N.of_nat n)
      by (apply N.Div0.div_lt_upper_bound; lia).
    lia. }
  split; intros E; apply (f_equal (@List.length A)) in E.
  - rewrite length_firstn in E. simpl in E. fold n in E. lia.
  - rewrite length_skipn in E. simpl in E. fold n in E. lia.
Qed.

(** The loop with three batches, the second of which the server answers
    with 500. *)
Example failed_batch_ends_the_loop_sample :
  uploadBatches (createApiClient (failNth 1 (HttpResponse 500 None))) 7
                ([[entryA]] ++ [entryB] :: [[entryC]]) 0
                (sampleWorld 0 sampleTree)
  = (worldOf 2 sampleTree [sampleUpload [entryA]; sampleUpload [entryB]]
             (Some sampleConfig) [],
     Throw (ApiError "Request failed with status code 500" 500 None))
  /\ exists more,
       console
         (fst (handleError
                 (ApiError "Request failed with status code 500" 500 None)
                 (worldOf 2 sampleTree
                          [sampleUpload [entryA]; sampleUpload [entryB]]
                          (Some sampleConfig) [])))
       = console (worldOf 2 sampleTree
                          [sampleUpload [entryA]; sampleUpload [entryB]]
                          (Some sampleConfig) [])
         ++ ConsoleError
              (message_of
                 (ApiError "Request failed with status code 500" 500 None))
            :: more.
Proof.
  apply (failed_batch_ends_the_loop N (createApiClient (failNth 1 (HttpResponse 500 None))) 7
           [[entryA]] [entryB] [[entryC]] 0
           (sampleWorld 0 sampleTree)
           (worldOf 1 sampleTree [sampleUpload [entryA]] (Some sampleConfig) [])
           (worldOf 2 sampleTree [sampleUpload [entryA]; sampleUpload [entryB]]
                    (Some sampleConfig) [])
           1 (ApiError "Request failed with status code 500" 500 None)).
  - reflexivity.
  - reflexivity.
  - intros [H _]. discriminate H.
Qed.


(** After the 401 the file holds the API URL alone. *)
Example unauthorized_sample :
  config_file
    (fst (request (failNth 0 (HttpResponse 401 None)) GET (OtherUrl "/projects") NoPayload
                  (sampleWorld 0 sampleTree)))
  = Some (mkGlobalConfig (Some "https://api.memo8.ai/api"%string) None None None).
Proof. reflexivity. Qed.


(** ** The [index] command *)

Section IndexFacts.

Variable ServerState : Type.
Variable serve : ServerState -> Request -> ServerState * Reply.
Variable pkg : IgnorePackage.

(** A step that does not touch the world's file system at all. *)
Ltac untouched := intros ?; reflexivity.

Lemma keeps_fs_bindM {A B} (m : M ServerState A) (k : A -> M ServerState B) :
  keeps_fs m -> (forall a, keeps_fs (k a)) -> keeps_fs (bindM m k).
Proof.
  intros Hm Hk w. unfold bindM. specialize (Hm w).
  destruct (m w) as [w' [a|e]]; cbn in *; [|exact Hm].
  rewrite (Hk a w'). exact Hm.
Qed.

Lemma keeps_fs_catch {A} (m : M ServerState A) handler :
  keeps_fs m -> (forall e, keeps_fs (handler e)) -> keeps_fs (catch m handler).
Proof.
  intros Hm Hh w. unfold catch. specialize (Hm w).
  destruct (m w) as [w' [a|e]]; cbn in *; [exact Hm|].
  rewrite (Hh e w'). exact Hm.
Qed.

Lemma keeps_fs_request m u data : keeps_fs (request serve m u data).
Proof.
  intros w. unfold request. rewrite dispatch_spec.
  destruct (settle _) as [response|error]; [reflexivity|].
  unfold onRejected. destruct (string_in _ _); [reflexivity|].
  destruct (status_is _ 401).
  { unfold clearAuth, saveGlobalConfig. cbn [config_write].
    destruct (config_write w); reflexivity. }
  destruct (status_is _ 422); reflexivity.
Qed.

Lemma keeps_fs_print_lines lines : keeps_fs (@print_lines ServerState lines).
Proof.
  induction lines as [|l lines IH]; [untouched|].
  cbn [print_lines]. apply keeps_fs_bindM; [untouched|].
  intros _. exact IH.
Qed.

Lemma keeps_fs_handleError err : keeps_fs (@handleError ServerState err).
Proof.
  unfold handleError. apply keeps_fs_bindM; [untouched|].
  intros _. destruct err; try untouched.
  apply keeps_fs_print_lines.
Qed.

Lemma keeps_fs_uploadBatches projectId batches indexed :
  keeps_fs (uploadBatches (createApiClient serve) projectId batches indexed).
Proof.
  revert indexed. induction batches as [|batch rest IH]; intros indexed.
  - intros w. reflexivity.
  - cbn [uploadBatches]. apply keeps_fs_bindM; [|intros _; apply IH].
    intros w. rewrite submitBatch_createApiClient.
    pose proof (keeps_fs_request POST (CodebaseIndexUrl projectId)
                  (FilesPayload batch) w) as H.
    destruct (request serve POST _ _ w) as [w' [r|e]]; exact H.
Qed.

Lemma keeps_fs_indexBody : keeps_fs (indexBody serve pkg).
Proof.
  unfold indexBody.
  apply keeps_fs_bindM; [untouched|]. intros [projectId|]; [|untouched].
  apply keeps_fs_bindM; [untouched|]. intros disk.
  apply keeps_fs_bindM; [untouched|]. intros ig.
  apply keeps_fs_bindM; [untouched|]. intros filePaths.
  apply keeps_fs_bindM; [untouched|]. intros _.
  destruct (len filePaths =? 0); [untouched|].
  destruct (len _ =? 0); [untouched|].
  apply keeps_fs_bindM; [apply keeps_fs_uploadBatches|].
  intros _. untouched.
Qed.

(** A run of the command reads the tree and does not change it. *)
Lemma indexAction_keeps_fs (w : World ServerState) :
  fs (fst (indexAction serve pkg w)) = fs w.
Proof.
  unfold indexAction. pose proof (keeps_fs_indexBody w) as H.
  destruct (indexBody serve pkg w) as [w' [[]|err]]; cbn [fst] in *; [exact H|].
  rewrite (keeps_fs_handleError err w'). exact H.
Qed.

(** A second run, after whatever the first one did, scans the same entries. *)
Lemma rerun_scans_the_same (w : World ServerState) :
  scanEntries pkg (fs (fst (indexAction serve pkg w))) = scanEntries pkg (fs w).
Proof. rewrite indexAction_keeps_fs. reflexivity. Qed.


(** The submission of a batch through the client is one request. *)
Lemma submitBatch_trace projectId batch (w : World ServerState) :
  exists req,
    is_upload_of projectId batch req
    /\ sent (fst (submitBatch (createApiClient serve) projectId batch w))
       = sent w ++ [req].
Proof.
  exists (outgoing POST (CodebaseIndexUrl projectId) (FilesPayload batch) w).
  split; [repeat split|].
  rewrite submitBatch_createApiClient.
  pose proof (request_sent _ serve POST (CodebaseIndexUrl projectId)
                (FilesPayload batch) w) as H.
  destruct (request serve POST _ _ w) as [w' [r|e]]; exact H.
Qed.

(** The loop sends the batches in order, one request each, up to the first
    that fails. *)
Lemma uploadBatches_trace projectId batches :
  forall indexed (w : World ServerState),
  exists reqs,
    sent (fst (uploadBatches (createApiClient serve) projectId batches indexed w))
      = sent w ++ reqs
    /\ match snd (uploadBatches (createApiClient serve) projectId
                                batches indexed w) with
       | Ok n =>
           Forall2 (is_upload_of projectId) batches reqs
           /\ n = indexed + len (concat batches)
       | Throw _ =>
           exists done failed rest,
             batches = done ++ failed :: rest
             /\ Forall2 (is_upload_of projectId) (done ++ [failed]) reqs
       end.
Proof.
  induction batches as [|batch rest IH]; intros indexed w.
  - exists []. cbn. rewrite app_nil_r. split; [reflexivity|].
    split; [constructor|]. unfold len. cbn. lia.
  - cbn [uploadBatches]. unfold bindM.
    destruct (submitBatch_trace projectId batch w) as (req & Hreq & Hsent).
    destruct (submitBatch (createApiClient serve) projectId batch w)
      as [w1 [[]|err]] eqn:E; cbn [fst] in Hsent.
    + destruct (IH (indexed + len batch) w1) as (reqs & Hs & Hr).
      exists (req :: reqs). rewrite Hs, Hsent, <- app_assoc. split; [reflexivity|].
      destruct (snd (uploadBatches _ _ rest _ w1)) as [n|err].
      * destruct Hr as [Hall ->]. split; [constructor; assumption|].
        cbn [concat]. unfold len. rewrite length_app. lia.
      * destruct Hr as (done & failed & rest' & -> & Hall).
        exists (batch :: done), failed, rest'. split; [reflexivity|].
        constructor; assumption.
    + exists [req]. cbn [fst snd]. split; [exact Hsent|].
      exists [], batch, rest. split; [reflexivity|].
      constructor; [exact Hreq|constructor].
Qed.

(** [handleError] writes on the terminal and touches nothing else. *)
Lemma print_lines_spec lines : forall (w : World ServerState),
  fst (print_lines lines w)
  = mkWorld (fs w) (local_projectId w) (server w) (sent w) (config_file w)
            (config_write w) (env_token w) (console w ++ lines).
Proof.
  induction lines as [|l lines IH]; intros w.
  - cbn. rewrite app_nil_r. destruct w; reflexivity.
  - cbn [print_lines]. unfold bindM. cbn [print]. rewrite IH. cbn.
    rewrite <- app_assoc. reflexivity.
Qed.

Lemma handleError_spec err (w : World ServerState) :
  fst (handleError err w)
  = mkWorld (fs w) (local_projectId w) (server w) (sent w) (config_file w)
            (config_write w) (env_token w)
            (console w ++ ConsoleError (message_of err)
               :: match err with
                  | ValidationError _ errors => field_lines errors
                  | _ => []
                  end).
Proof.
  unfold handleError, bindM. cbn [print].
  destruct err; try reflexivity.
  rewrite print_lines_spec. cbn. rewrite <- app_assoc. reflexivity.
Qed.


End IndexFacts.


(* ================================================================== *)
(** * Part IV.  Further properties                                      *)
(* ================================================================== *)

From Stdlib Require Import ZArith.

(** ** UTF-8 *)

(** Arithmetic with division and remainder by constants. *)
Ltac divlia := zify; Z.to_euclidean_division_equations; lia.

Lemma lor_shiftl_small h k x :
  x < 2 ^ k -> N.lor (N.shiftl h k) x = h * 2 ^ k + x.
Proof.
  intros Hx.
  assert (Hland : N.land (N.shiftl h k) x = 0).
  { apply N.bits_inj. intros n. rewrite N.land_spec, N.bits_0.
    destruct (N.lt_ge_cases n k) as [Hlt|Hge].
    - rewrite N.shiftl_spec_low by exact Hlt. reflexivity.
    - rewrite <- (N.mod_small x (2 ^ k)) by exact Hx.
      rewrite N.mod_pow2_bits_high by exact Hge. apply andb_false_r. }
  rewrite <- N.lxor_lor, <- N.add_nocarry_lxor by exact Hland.
  rewrite N.shiftl_mul_pow2. reflexivity.
Qed.

Lemma lor_80 x : x < 64 -> N.lor 0x80 x = 0x80 + x.
Proof. intros H. exact (lor_shiftl_small 2 6 x H). Qed.
Lemma lor_C0 x : x < 64 -> N.lor 0xC0 x = 0xC0 + x.
Proof. intros H. exact (lor_shiftl_small 3 6 x H). Qed.
Lemma lor_E0 x : x < 16 -> N.lor 0xE0 x = 0xE0 + x.
Proof. intros H. exact (lor_shiftl_small 14 4 x H). Qed.
Lemma lor_F0 x : x < 8 -> N.lor 0xF0 x = 0xF0 + x.
Proof. intros H. exact (lor_shiftl_small 30 3 x H). Qed.

Lemma land_3F x : N.land x 0x3F = x mod 64.
Proof. exact (N.land_ones x 6). Qed.
Lemma land_1F x : N.land x 0x1F = x mod 32.
Proof. exact (N.land_ones x 5). Qed.
Lemma land_0F x : N.land x 0xF = x mod 16.
Proof. exact (N.land_ones x 4). Qed.
Lemma land_07 x : N.land x 0x7 = x mod 8.
Proof. exact (N.land_ones x 3). Qed.
Lemma land_3FF x : N.land x 0x3FF = x mod 1024.
Proof. exact (N.land_ones x 10). Qed.
Lemma shiftr_6 x : N.shiftr x 6 = x / 64.
Proof. exact (N.shiftr_div_pow2 x 6). Qed.
Lemma shiftr_10 x : N.shiftr x 10 = x / 1024.
Proof. exact (N.shiftr_div_pow2 x 10). Qed.
Lemma shiftr_12 x : N.shiftr x 12 = x / 4096.
Proof. exact (N.shiftr_div_pow2 x 12). Qed.
Lemma shiftr_18 x : N.shiftr x 18 = x / 262144.
Proof. exact (N.shiftr_div_pow2 x 18). Qed.
Lemma shiftl_10 x : N.shiftl x 10 = x * 1024.
Proof. exact (N.shiftl_mul_pow2 x 10). Qed.

(** The continuation step of the decoder, in arithmetic. *)
Lemma lor_shiftl_6 acc b : N.lor (N.shiftl acc 6) (N.land b 0x3F) = acc * 64 + b mod 64.
Proof.
  rewrite land_3F. apply (lor_shiftl_small acc 6).
  apply N.mod_lt. discriminate.
Qed.

(** The bytes of a code point, in arithmetic. *)
Lemma utf8_of_codepoint_arith cp :
  cp < 0x110000 ->
  utf8_of_codepoint cp
  = if cp <? 0x80 then [cp]
    else if cp <? 0x800 then [0xC0 + cp / 64; 0x80 + cp mod 64]
    else if cp <? 0x10000 then
      [0xE0 + cp / 4096; 0x80 + (cp / 64) mod 64; 0x80 + cp mod 64]
    else
      [0xF0 + cp / 262144; 0x80 + (cp / 4096) mod 64;
       0x80 + (cp / 64) mod 64; 0x80 + cp mod 64].
Proof.
  intros Hcp. unfold utf8_of_codepoint.
  rewrite !land_3F, !shiftr_6, !shiftr_12, !shiftr_18.
  destruct (N.ltb_spec cp 0x80); [reflexivity|].
  destruct (N.ltb_spec cp 0x800).
  { rewrite lor_C0, lor_80; [reflexivity| |]; divlia. }
  destruct (N.ltb_spec cp 0x10000).
  { rewrite lor_E0, !lor_80; [reflexivity| | |]; divlia. }
  rewrite lor_F0, !lor_80; [reflexivity| | | |]; divlia.
Qed.

(** Settle the comparisons of a goal one after the other, by arithmetic. *)
Ltac decide_tests :=
  repeat
    (cbn [andb negb];
     match goal with
     | |- context [?a <=? ?b] =>
         first [ replace (a <=? b) with true by (symmetry; apply N.leb_le; divlia)
               | replace (a <=? b) with false by (symmetry; apply N.leb_gt; divlia) ]
     | |- context [?a <? ?b] =>
         first [ replace (a <? b) with true by (symmetry; apply N.ltb_lt; divlia)
               | replace (a <? b) with false by (symmetry; apply N.ltb_ge; divlia) ]
     | |- context [?a =? ?b] =>
         first [ replace (a =? b) with true by (symmetry; apply N.eqb_eq; divlia)
               | replace (a =? b) with false by (symmetry; apply N.eqb_neq; divlia) ]
     end).

Lemma decode_codepoint cp rest :
  is_scalar cp ->
  decode_from None (utf8_of_codepoint cp ++ rest) = cp :: decode_from None rest.
Proof.
  intros Hs. unfold is_scalar in Hs.
  assert (Hcp : cp < 0x110000) by lia.
  rewrite (utf8_of_codepoint_arith cp Hcp).
  destruct (N.ltb_spec cp 0x80) as [H1|H1].
  { cbn [app decode_from decode_step]. unfold decode_start. decide_tests. reflexivity. }
  destruct (N.ltb_spec cp 0x800) as [H2|H2].
  { cbn [app decode_from decode_step]. unfold decode_start. decide_tests.
    cbn [decode_step lower upper needed cp_acc app]. decide_tests.
    rewrite lor_shiftl_6, land_1F. cbn [app]. f_equal. divlia. }
  destruct (N.ltb_spec cp 0x10000) as [H3|H3].
  { cbn [app decode_from decode_step]. unfold decode_start. decide_tests.
    cbn [decode_step lower upper needed cp_acc app].
    destruct (N.eq_dec (cp / 4096) 0) as [E0|E0];
      destruct (N.eq_dec (cp / 4096) 13) as [E13|E13]; try lia.
    all: decide_tests; cbn [decode_step lower upper needed cp_acc app]; decide_tests;
      rewrite !lor_shiftl_6, land_0F; cbn [app]; f_equal; divlia. }
  cbn [app decode_from decode_step]. unfold decode_start. decide_tests.
  cbn [decode_step lower upper needed cp_acc app].
  destruct (N.eq_dec (cp / 262144) 0) as [E0|E0];
    destruct (N.eq_dec (cp / 262144) 4) as [E4|E4]; try lia.
  all: decide_tests; cbn [decode_step lower upper needed cp_acc app]; decide_tests;
    cbn [decode_step lower upper needed cp_acc app]; decide_tests;
    rewrite !lor_shiftl_6, land_07; cbn [app]; f_equal; divlia.
Qed.

Lemma decode_codepoints cps :
  Forall is_scalar cps ->
  decode_from None (flat_map utf8_of_codepoint cps) = cps.
Proof.
  induction 1 as [|cp cps Hcp _ IH]; [reflexivity|].
  cbn [flat_map]. rewrite decode_codepoint by exact Hcp. rewrite IH. reflexivity.
Qed.

(** Encoding one code point written as UTF-16. *)
Lemma encode_codepoint cp s :
  is_scalar cp ->
  utf8_encode (utf16_of_codepoint cp ++ s) = utf8_of_codepoint cp ++ utf8_encode s.
Proof.
  intros Hs. unfold is_scalar in Hs. unfold utf16_of_codepoint.
  destruct (N.ltb_spec cp 0x10000) as [H|H].
  - cbn [app utf8_encode]. unfold is_high_surrogate, is_low_surrogate.
    destruct Hs as [Hs|Hs]; decide_tests; reflexivity.
  - rewrite shiftr_10, land_3FF. cbn [app utf8_encode].
    unfold is_high_surrogate, is_low_surrogate. decide_tests.
    rewrite shiftl_10. do 2 f_equal. divlia.
Qed.

Lemma encode_codepoints cps :
  Forall is_scalar cps ->
  utf8_encode (flat_map utf16_of_codepoint cps) = flat_map utf8_of_codepoint cps.
Proof.
  induction 1 as [|cp cps Hcp _ IH]; [reflexivity|].
  cbn [flat_map]. rewrite encode_codepoint by exact Hcp. rewrite IH. reflexivity.
Qed.

(** Decoding well-formed UTF-8 and encoding the string again gives the
    bytes back. *)
Theorem utf8_round_trip buf :
  wellformed_utf8 buf -> utf8_encode (toString_utf8 buf) = buf.
Proof.
  intros (cps & Hcps & ->). unfold toString_utf8.
  rewrite decode_codepoints by exact Hcps. apply encode_codepoints, Hcps.
Qed.

Lemma replacement_scalar : is_scalar 0xFFFD.
Proof. unfold is_scalar. lia. Qed.

Lemma decode_start_ok b :
  state_ok (fst (decode_start b)) /\ Forall is_scalar (snd (decode_start b)).
Proof.
  unfold decode_start.
  destruct (b <=? 0x7F) eqn:E1.
  { apply N.leb_le in E1. split; [exact I|].
    constructor; [|constructor]. unfold is_scalar. lia. }
  apply N.leb_gt in E1.
  destruct ((0xC2 <=? b) && (b <=? 0xDF)) eqn:E2.
  { apply andb_true_iff in E2. rewrite !N.leb_le in E2.
    split; [|constructor]. cbn [fst state_ok]. unfold pending_ok, good_acc.
    cbn [lower upper needed cp_acc]. rewrite land_1F. divlia. }
  destruct ((0xE0 <=? b) && (b <=? 0xEF)) eqn:E3.
  { apply andb_true_iff in E3. rewrite !N.leb_le in E3.
    split; [|constructor]. cbn [fst state_ok]. unfold pending_ok, good_acc.
    cbn [lower upper needed cp_acc]. rewrite land_0F.
    destruct (N.eqb_spec b 0xE0); destruct (N.eqb_spec b 0xED); divlia. }
  destruct ((0xF0 <=? b) && (b <=? 0xF4)) eqn:E4.
  { apply andb_true_iff in E4. rewrite !N.leb_le in E4.
    split; [|constructor]. cbn [fst state_ok]. unfold pending_ok, good_acc.
    cbn [lower upper needed cp_acc]. rewrite land_07.
    destruct (N.eqb_spec b 0xF0); destruct (N.eqb_spec b 0xF4); divlia. }
  split; [exact I|]. constructor; [exact replacement_scalar|constructor].
Qed.

Lemma decode_step_ok st b :
  state_ok st ->
  state_ok (fst (decode_step st b)) /\ Forall is_scalar (snd (decode_step st b)).
Proof.
  destruct st as [p|]; [|intros _; apply decode_start_ok].
  intros (Hlo & Hup & Hp). cbn [decode_step].
  destruct (N.leb_spec (lower p) b) as [H1|H1];
    destruct (N.leb_spec b (upper p)) as [H2|H2]; cbn [andb].
  2-4: destruct (decode_start_ok b) as [Hs Ho]; destruct (decode_start b) as [st' out];
    split; [exact Hs|constructor; [exact replacement_scalar|exact Ho]].
  rewrite lor_shiftl_6.
  destruct Hp as [(Hn & Hg)|[(Hn & Hacc & H13)|(Hn & Hacc & H4 & H0)]]; rewrite Hn;
    cbn [N.eqb Pos.eqb fst snd state_ok].
  - split; [exact I|]. constructor; [|constructor].
    unfold is_scalar, good_acc in *. divlia.
  - split; [|constructor]. unfold pending_ok, good_acc.
    cbn [lower upper needed cp_acc].
    split; [lia|]. split; [lia|]. left. split; [reflexivity|].
    destruct (N.eq_dec (cp_acc p) 13) as [E|E]; [specialize (H13 E)|]; divlia.
  - split; [|constructor]. unfold pending_ok, good_acc.
    cbn [lower upper needed cp_acc].
    split; [lia|]. split; [lia|]. right. left. split; [reflexivity|].
    destruct (N.eq_dec (cp_acc p) 4) as [E|E]; [specialize (H4 E)|];
      (destruct (N.eq_dec (cp_acc p) 0) as [E'|E']; [specialize (H0 E')|]); divlia.
Qed.

Lemma decode_from_scalar buf : forall st,
  state_ok st -> Forall is_scalar (decode_from st buf).
Proof.
  induction buf as [|b rest IH]; intros st Hst.
  - destruct st; [|constructor]. constructor; [exact replacement_scalar|constructor].
  - cbn [decode_from]. destruct (decode_step_ok st b Hst) as [Hs Ho].
    destruct (decode_step st b) as [st' out]. apply Forall_app. split.
    + exact Ho.
    + apply IH, Hs.
Qed.

(** Whatever the bytes, the decoder yields scalar values only: an
    ill-formed sequence becomes U+FFFD, never a surrogate. *)
Theorem decoded_scalar buf : Forall is_scalar (decode_from None buf).
Proof. apply decode_from_scalar. exact I. Qed.

(** Hence the string of a buffer, encoded, is the encoding of the decoded
    code points. *)
Theorem encode_toString buf :
  utf8_encode (toString_utf8 buf) = flat_map utf8_of_codepoint (decode_from None buf).
Proof. apply encode_codepoints, decoded_scalar. Qed.

Lemma utf8_of_codepoint_length cp :
  (1 <= List.length (utf8_of_codepoint cp) <= 4)%nat.
Proof.
  unfold utf8_of_codepoint.
  destruct (cp <? 0x80); [cbn; lia|].
  destruct (cp <? 0x800); [cbn [List.length]; lia|].
  destruct (cp <? 0x10000); cbn [List.length]; lia.
Qed.

Lemma decode_start_length b :
  (List.length (flat_map utf8_of_codepoint (snd (decode_start b)))
   + credit (fst (decode_start b)) <= 3)%nat.
Proof.
  unfold decode_start.
  destruct (b <=? 0x7F) eqn:E1.
  { apply N.leb_le in E1. cbn [fst snd flat_map credit app].
    unfold utf8_of_codepoint. rewrite app_nil_r.
    replace (b <? 0x80) with true by (symmetry; apply N.ltb_lt; lia).
    cbn. lia. }
  destruct ((0xC2 <=? b) && (b <=? 0xDF)); [cbn; lia|].
  destruct ((0xE0 <=? b) && (b <=? 0xEF)); [cbn; lia|].
  destruct ((0xF0 <=? b) && (b <=? 0xF4)); [cbn; lia|].
  cbn. lia.
Qed.

Lemma decode_step_length st b :
  (List.length (flat_map utf8_of_codepoint (snd (decode_step st b)))
   + credit (fst (decode_step st b)) <= 3 + credit st)%nat.
Proof.
  destruct st as [p|]; [|apply decode_start_length].
  cbn [decode_step credit].
  destruct ((lower p <=? b) && (b <=? upper p)).
  - destruct (needed p =? 1); cbn [fst snd credit flat_map].
    + rewrite app_nil_r. pose proof (utf8_of_codepoint_length
        (N.lor (N.shiftl (cp_acc p) 6) (N.land b 63))). lia.
    + cbn. lia.
  - pose proof (decode_start_length b) as H.
    destruct (decode_start b) as [st' out]. cbn [fst snd flat_map] in *.
    rewrite length_app. change (List.length (utf8_of_codepoint 0xFFFD)) with 3%nat.
    lia.
Qed.

Lemma decode_from_length buf : forall st,
  (List.length (flat_map utf8_of_codepoint (decode_from st buf))
   <= 3 * List.length buf + credit st)%nat.
Proof.
  induction buf as [|b rest IH]; intros st.
  - destruct st; cbn; lia.
  - cbn [decode_from]. pose proof (decode_step_length st b) as H.
    destruct (decode_step st b) as [st' out]. cbn [fst snd] in H.
    rewrite flat_map_app, length_app. specialize (IH st').
    cbn [List.length]. lia.
Qed.

(** and it is at most three times as long as the buffer: a byte that
    cannot be decoded costs the three bytes of U+FFFD. *)
Theorem byteLength_toString_bound buf :
  byteLength (toString_utf8 buf) <= 3 * len buf.
Proof.
  unfold byteLength, len. rewrite encode_toString.
  pose proof (decode_from_length buf None) as H. cbn [credit] in H. lia.
Qed.

(** ** Admitted entries and their sizes *)

Lemma admitFile_content baseDir filePath buf entry :
  admitFile baseDir filePath (Ok buf) = Some entry ->
  content entry = toString_utf8 buf
  /\ file_hash entry = sha256_hex (toString_utf8 buf)
  /\ file_path entry = relative baseDir filePath.
Proof.
  unfold admitFile.
  destruct (includes 0 (subarray0 8192 buf)); [discriminate|].
  destruct (falsy (trim (toString_utf8 buf))); [discriminate|].
  intros [= <-]. repeat split.
Qed.

(** X1.  For a file that is well-formed UTF-8 the entry carries the file
    itself: its content encodes to the bytes read, [file_hash] is the
    SHA-256 of those bytes in hexadecimal, and the byte length counted by
    the batch builder is the size of the file. *)
Theorem admitted_hash_of_file_bytes baseDir filePath buf entry :
  admitFile baseDir filePath (Ok buf) = Some entry ->
  wellformed_utf8 buf ->
  utf8_encode (content entry) = buf
  /\ file_hash entry = Sha256.hex (Sha256.sha256 buf)
  /\ byteLength (content entry) = len buf.
Proof.
  intros Hadmit Hwf.
  destruct (admitFile_content _ _ _ _ Hadmit) as (Hc & Hh & _).
  pose proof (utf8_round_trip buf Hwf) as Hrt.
  rewrite Hc, Hh. unfold sha256_hex, byteLength. rewrite Hrt.
  repeat split.
Qed.

(** X2.  The content of an admitted entry, whatever bytes the file held,
    is a string that UTF-8 carries unchanged: encoded and decoded again it
    is the same string.  What is hashed is what is sent. *)
Theorem admitted_content_is_stable baseDir filePath buf entry :
  admitFile baseDir filePath (Ok buf) = Some entry ->
  toString_utf8 (utf8_encode (content entry)) = content entry.
Proof.
  intros Hadmit.
  destruct (admitFile_content _ _ _ _ Hadmit) as (-> & _ & _).
  rewrite encode_toString. unfold toString_utf8.
  rewrite decode_codepoints by apply decoded_scalar. reflexivity.
Qed.

(** X3.  The estimated size of an admitted entry is at most three times
    the size of the file, plus the length of its relative path, plus 164
    (the 64 digits of the hash and the constant 100). *)
Theorem admitted_entry_size_bound baseDir filePath buf entry :
  admitFile baseDir filePath (Ok buf) = Some entry ->
  entrySize entry <= 3 * len buf + strlen (relative baseDir filePath) + 164.
Proof.
  intros Hadmit.
  destruct (admitFile_content _ _ _ _ Hadmit) as (Hc & Hh & Hp).
  unfold entrySize. rewrite Hc, Hh, Hp.
  pose proof (byteLength_toString_bound buf) as Hb.
  destruct (sha256_hex_shape (toString_utf8 buf)) as [Hlen _].
  unfold strlen at 2. rewrite Hlen. lia.
Qed.

(** The entries read are those admitted, of the paths given. *)
Lemma readEntries_In fs baseDir filePaths entry :
  In entry (readEntries fs baseDir filePaths) <->
  exists filePath,
    In filePath filePaths
    /\ admitFile baseDir filePath (readFileSync fs filePath) = Some entry.
Proof.
  unfold readEntries. rewrite in_flat_map. split.
  - intros (p & Hp & Hin). exists p. split; [exact Hp|].
    destruct (admitFile baseDir p (readFileSync fs p)) as [e|]; [|destruct Hin].
    destruct Hin as [->|[]]. reflexivity.
  - intros (p & Hp & Hadmit). exists p. split; [exact Hp|].
    rewrite Hadmit. left. reflexivity.
Qed.

(** X4.  When every file read is at most [MAX_FILE_SIZE] long and its
    relative path has at most 2^20 code units, every batch is within
    [MAX_BATCH_BYTES]: the case of an entry alone above the ceiling does
    not arise. *)
Theorem small_files_fit_the_ceiling fs baseDir filePaths :
  (forall filePath buf,
     In filePath filePaths -> readFileSync fs filePath = Ok buf ->
     len buf <= MAX_FILE_SIZE /\ strlen (relative baseDir filePath) <= 1048576) ->
  Forall (fun batch => batchSize batch <= MAX_BATCH_BYTES)
         (buildBatches (readEntries fs baseDir filePaths)).
Proof.
  intros Hsmall.
  destruct (buildBatches_spec (readEntries fs baseDir filePaths)) as (Hcat & _ & Hb).
  rewrite Forall_forall in *. intros batch Hbatch.
  destruct (Hb batch Hbatch) as [Hle|(entry & -> & Hbig)]; [exact Hle|].
  exfalso.
  assert (Hin : In entry (readEntries fs baseDir filePaths)).
  { rewrite <- Hcat. apply in_concat. exists [entry]. split; [exact Hbatch|].
    left. reflexivity. }
  apply readEntries_In in Hin. destruct Hin as (p & Hp & Hadmit).
  destruct (readFileSync fs p) as [buf|e] eqn:Eread; [|discriminate].
  destruct (Hsmall p buf Hp Eread) as [Hlen Hpath].
  destruct (admitFile_content _ _ _ _ Hadmit) as (Hc & Hh & Hrel).
  pose proof (byteLength_toString_bound buf) as Hbound.
  destruct (sha256_hex_shape (toString_utf8 buf)) as [Hhash _].
  unfold entrySize in Hbig. rewrite Hc, Hh, Hrel in Hbig.
  unfold strlen at 2 in Hbig. rewrite Hhash in Hbig.
  unfold MAX_FILE_SIZE, MAX_BATCH_BYTES in *. lia.
Qed.


Lemma accentedBytes_wellformed : wellformed_utf8 accentedBytes.
Proof.
  exists [0xE9; 0x20AC; 0x1F600; 0x0A]. split; [|reflexivity].
  repeat (apply Forall_cons; [unfold is_scalar; lia|]). apply Forall_nil.
Qed.

Lemma admitted_hash_of_file_bytes_witness :
  utf8_encode (content accentedEntry) = accentedBytes
  /\ file_hash accentedEntry = Sha256.hex (Sha256.sha256 accentedBytes)
  /\ byteLength (content accentedEntry) = len accentedBytes.
Proof.
  apply (admitted_hash_of_file_bytes sampleBase (sampleBase ++ [lit "cafe.txt"])
           accentedBytes accentedEntry).
  - vm_compute. reflexivity.
  - exact accentedBytes_wellformed.
Defined.

Lemma admitted_content_is_stable_witness :
  toString_utf8 (utf8_encode (content brokenEntry)) = content brokenEntry.
Proof.
  apply (admitted_content_is_stable sampleBase (sampleBase ++ [lit "broken.txt"])
           brokenBytes brokenEntry).
  vm_compute. reflexivity.
Defined.

Lemma admitted_entry_size_bound_witness :
  entrySize brokenEntry
  <= 3 * len brokenBytes
     + strlen (relative sampleBase (sampleBase ++ [lit "broken.txt"])) + 164.
Proof.
  apply (admitted_entry_size_bound sampleBase (sampleBase ++ [lit "broken.txt"])
           brokenBytes brokenEntry).
  vm_compute. reflexivity.
Defined.

Lemma small_files_fit_the_ceiling_witness :
  Forall (fun batch => batchSize batch <= MAX_BATCH_BYTES)
         (buildBatches
            (readEntries (mkFileSystem sampleBase sampleTree) sampleBase
               [sampleBase ++ [lit "a.txt"]; sampleBase ++ [lit "b.bin"]])).
Proof.
  apply small_files_fit_the_ceiling.
  intros filePath buf [<-|[<-|[]]] [= <-]; vm_compute; split; discriminate.
Defined.

(** ** Batch construction, continued *)

Lemma tight_snoc bs b c :
  tight (bs ++ [b]) ->
  match c with
  | entry :: _ => MAX_BATCH_BYTES < batchSize b + entrySize entry
  | [] => True
  end ->
  tight (bs ++ [b; c]).
Proof.
  induction bs as [|b0 bs IH]; intros Ht Hc.
  - cbn. split; [exact Hc|exact I].
  - destruct bs as [|b1 bs].
    + cbn in *. destruct Ht as [H0 _]. repeat split; assumption.
    + cbn [app tight] in *. destruct Ht as [H0 Ht]. split; [exact H0|].
      apply IH; assumption.
Qed.

Lemma tight_last bs b c :
  tight (bs ++ [b]) ->
  match b, c with e :: _, e' :: _ => e = e' | [], _ => bs = [] | _, [] => False end ->
  tight (bs ++ [c]).
Proof.
  induction bs as [|b0 bs IH]; intros Ht Hh; [exact I|].
  destruct bs as [|b1 bs].
  - cbn in *. destruct Ht as [H0 _]. split; [|exact I].
    destruct b as [|e b]; [discriminate|]. destruct c as [|e' c]; [destruct Hh|].
    subst. exact H0.
  - cbn [app tight] in *. destruct Ht as [H0 Ht]. split; [exact H0|].
    apply IH; [exact Ht|]. destruct b; [discriminate|exact Hh].
Qed.

Lemma TightInv_step st entry : TightInv st -> TightInv (batchStep st entry).
Proof.
  intros [Hs H0 Ht]. unfold batchStep. rewrite len_pos.
  destruct (currentBatch st) as [|e0 cur] eqn:Ecur; cbn [andb].
  - rewrite Ecur, (H0 eq_refl). constructor; cbn; [|discriminate|exact I].
    rewrite Hs. cbn. lia.
  - destruct (MAX_BATCH_BYTES <? currentSize st + entrySize entry) eqn:Ecmp;
      cbn [andb batches currentBatch currentSize].
    + apply N.ltb_lt in Ecmp. constructor; cbn.
      * lia.
      * discriminate.
      * rewrite <- app_assoc. apply tight_snoc; [exact Ht|].
        rewrite <- Hs. exact Ecmp.
    + rewrite Ecur. constructor; cbn [batches currentBatch currentSize].
      * rewrite Hs. change (e0 :: cur ++ [entry]) with ((e0 :: cur) ++ [entry]).
        rewrite batchSize_app. cbn. lia.
      * discriminate.
      * apply (tight_last _ (e0 :: cur)); [exact Ht|reflexivity].
Qed.

Lemma TightInv_fold entries : forall st,
  TightInv st -> TightInv (fold_left batchStep entries st).
Proof.
  induction entries as [|e entries IH]; intros st H; [exact H|].
  apply IH, TightInv_step, H.
Qed.

Lemma buildBatches_tight allEntries : tight (buildBatches allEntries).
Proof.
  unfold buildBatches.
  assert (H : TightInv (fold_left batchStep allEntries (mkBatchState [] [] 0))).
  { apply TightInv_fold. constructor; cbn; auto. }
  destruct H as [_ H0 Ht]. unfold batchFlush. rewrite len_pos.
  destruct (currentBatch _) as [|e cur] eqn:E; [|exact Ht].
  rewrite (H0 eq_refl). exact I.
Qed.

Lemma tight_middle pre b1 entry b2 post :
  tight (pre ++ b1 :: (entry :: b2) :: post) ->
  MAX_BATCH_BYTES < batchSize b1 + entrySize entry.
Proof.
  induction pre as [|b0 pre IH]; intros Ht.
  - cbn in Ht. apply Ht.
  - apply IH. destruct pre; cbn [app tight] in Ht; apply Ht.
Qed.

(** X5.  Batches are filled greedily: a batch is followed by another only
    because the first entry of that one did not fit, so the estimated size
    of the batch with that entry exceeds [MAX_BATCH_BYTES]. *)
Theorem batches_filled_greedily allEntries pre b1 entry b2 post :
  buildBatches allEntries = pre ++ b1 :: (entry :: b2) :: post ->
  MAX_BATCH_BYTES < batchSize b1 + entrySize entry.
Proof.
  intros E. apply (tight_middle pre b1 entry b2 post).
  rewrite <- E. apply buildBatches_tight.
Qed.

(** X6.  Entries whose estimated sizes add up to at most [MAX_BATCH_BYTES]
    make one batch, which holds them all in order. *)
Theorem small_scan_is_one_batch allEntries :
  allEntries <> [] ->
  batchSize allEntries <= MAX_BATCH_BYTES ->
  buildBatches allEntries = [allEntries].
Proof.
  intros Hne Hsmall.
  destruct (buildBatches_spec allEntries) as (Hcat & Hnonempty & _).
  pose proof (buildBatches_tight allEntries) as Ht.
  destruct (buildBatches allEntries) as [|b1 [|b2 rest]].
  - cbn in Hcat. congruence.
  - cbn in Hcat. rewrite app_nil_r in Hcat. congruence.
  - exfalso. apply Forall_cons_iff in Hnonempty. destruct Hnonempty as [_ Hn2].
    apply Forall_cons_iff in Hn2. destruct Hn2 as [Hb2 _].
    destruct b2 as [|entry b2]; [congruence|].
    cbn [tight] in Ht. destruct Ht as [Hbig _].
    rewrite <- Hcat in Hsmall. cbn [concat] in Hsmall.
    rewrite !batchSize_app in Hsmall. cbn [batchSize fold_right] in Hsmall.
    unfold batchSize in *. lia.
Qed.

Lemma entrySize_bigEntry : entrySize bigEntry = MAX_BATCH_BYTES + 108.
Proof.
  unfold entrySize, bigEntry. cbn [content file_path file_hash].
  rewrite byteLength_repeat_ascii by reflexivity.
  rewrite N2Nat.id. reflexivity.
Qed.

Lemma two_batches_sample : buildBatches [entryA; bigEntry] = [[entryA]; [bigEntry]].
Proof.
  unfold buildBatches. cbn [fold_left]. unfold batchStep at 2.
  cbn [currentBatch currentSize batches]. rewrite !len_pos. cbn [andb app].
  unfold batchStep. cbn [currentBatch currentSize batches]. rewrite !len_pos.
  cbn [andb app]. rewrite entrySize_bigEntry.
  replace (MAX_BATCH_BYTES <? 0 + entrySize entryA + (MAX_BATCH_BYTES + 108))
    with true by (symmetry; apply N.ltb_lt; lia).
  unfold batchFlush. cbn [currentBatch batches]. rewrite len_pos. reflexivity.
Qed.

Lemma batches_filled_greedily_witness :
  MAX_BATCH_BYTES < batchSize [entryA] + entrySize bigEntry.
Proof.
  apply (batches_filled_greedily [entryA; bigEntry] [] [entryA] bigEntry [] []).
  exact two_batches_sample.
Defined.

Lemma small_scan_is_one_batch_witness :
  buildBatches [entryA; entryB; entryC] = [[entryA; entryB; entryC]].
Proof.
  apply small_scan_is_one_batch.
  - discriminate.
  - vm_compute. discriminate.
Defined.

(** ** The split of a refused batch *)

Section SplitFacts.

Variable ServerState : Type.
Variable api : ApiClient ServerState.
Variable projectId : N.

(** X8.  The split goes one level deep.  When the halves are submitted and
    the first half is refused, with a 413 or otherwise, that error leaves
    the loop: the half is not split again, the second half and the batches
    after it are never sent. *)
Theorem refused_half_is_fatal batch (w w1 w2 : World ServerState) err err2 :
  post api (CodebaseIndexUrl projectId) (FilesPayload batch) w = (w1, Throw err) ->
  response_status_of err = Some 413 ->
  1 < len batch ->
  post api (CodebaseIndexUrl projectId)
       (FilesPayload (slice_to (ceil_half (len batch)) batch)) w1
    = (w2, Throw err2) ->
  submitBatch api projectId batch w = (w2, Throw err2)
  /\ forall rest indexed,
       uploadBatches api projectId (batch :: rest) indexed w = (w2, Throw err2).
Proof.
  intros Hpost Hstatus Hlen Hhalf.
  assert (Hsub : submitBatch api projectId batch w = (w2, Throw err2)).
  { unfold submitBatch, catch, bindM. rewrite Hpost, Hstatus.
    cbn [status_is]. apply N.ltb_lt in Hlen. rewrite Hlen. cbn [N.eqb Pos.eqb andb].
    rewrite Hhalf. reflexivity. }
  split; [exact Hsub|]. intros rest indexed.
  cbn [uploadBatches]. unfold bindM. rewrite Hsub. reflexivity.
Qed.

End SplitFacts.

Lemma refused_half_is_fatal_witness :
  submitBatch (bareClient (rejectLargerThan 1)) 7 [entryA; entryB; entryC; entryA]
              (sampleWorld tt sampleTree)
  = (worldOf tt sampleTree
       [sampleUpload [entryA; entryB; entryC; entryA]; sampleUpload [entryA; entryB]]
       (Some sampleConfig) [],
     Throw (RawAxiosError
              (BadStatus 413 None "Request failed with status code 413")))
  /\ forall rest indexed,
       uploadBatches (bareClient (rejectLargerThan 1)) 7
                     ([entryA; entryB; entryC; entryA] :: rest) indexed
                     (sampleWorld tt sampleTree)
       = (worldOf tt sampleTree
            [sampleUpload [entryA; entryB; entryC; entryA];
             sampleUpload [entryA; entryB]]
            (Some sampleConfig) [],
          Throw (RawAxiosError
                   (BadStatus 413 None "Request failed with status code 413"))).
Proof.
  apply (refused_half_is_fatal unit (bareClient (rejectLargerThan 1)) 7
           [entryA; entryB; entryC; entryA] (sampleWorld tt sampleTree)
           (worldOf tt sampleTree [sampleUpload [entryA; entryB; entryC; entryA]]
                    (Some sampleConfig) [])
           _
           (RawAxiosError
              (BadStatus 413 None "Request failed with status code 413"))).
  - reflexivity.
  - reflexivity.
  - reflexivity.
  - reflexivity.
Defined.

(** ** The directory walk, continued *)

Section WalkOnce.

Variable ig : Ignore.

Lemma visible_below pre d p :
  visible ig pre d p ->
  exists entries name segs,
    d = Dir (Ok entries) /\ In name (map fst entries) /\ p = pre ++ name :: segs.
Proof.
  induction 1 as [pre entries name size data Hin _ _
                 |pre entries name sub p Hin _ _ _ IH].
  - exists entries, name, []. split; [reflexivity|]. split; [|reflexivity].
    apply in_map_iff. exists (name, File (Ok size) data). auto.
  - destruct IH as (_ & name' & segs & _ & _ & ->).
    exists entries, name, (name' :: segs). split; [reflexivity|]. split.
    + apply in_map_iff. exists (name, sub). auto.
    + rewrite <- app_assoc. reflexivity.
Qed.

Lemma unique_names_entries entries :
  unique_names (Dir (Ok entries)) ->
  NoDup (map fst entries) /\ Forall (fun ne => unique_names (snd ne)) entries.
Proof.
  cbn [unique_names]. intros [Hnd Hall]. split; [exact Hnd|].
  clear Hnd. induction entries as [|[name n] rest IH]; constructor.
  - apply Hall.
  - apply IH, Hall.
Qed.

Lemma walkDirectory_NoDup (d : node) :
  forall pre rels,
    unique_names d ->
    walkDirectory ig [] pre d = Ok rels -> NoDup rels.
Proof.
  induction d as [| | |entries IH] using node_tree_ind; intros pre rels Hu;
    try discriminate.
  apply unique_names_entries in Hu. destruct Hu as [Hnd Hall].
  cbn [walkDirectory]. revert rels.
  induction entries as [|[name n] rest IHrest]; intros rels Hwalk.
  - injection Hwalk as <-. constructor.
  - inversion IH as [|? ? Hn Hrest]; subst.
    inversion Hall as [|? ? Hun Hallrest]; subst.
    cbn [map fst] in Hnd. inversion Hnd as [|? ? Hfresh Hndrest]; subst.
    specialize (IHrest Hrest Hndrest Hallrest). cbn [snd] in Hn, Hun.
    assert (Hmore : forall more p,
               walkLoop (walkDirectory ig []) ig [] pre rest = Ok more ->
               In p more -> exists name' segs,
                 In name' (map fst rest) /\ p = pre ++ name' :: segs).
    { intros more p Hm Hp.
      apply (walkDirectory_visible ig (Dir (Ok rest)) pre more Hm) in Hp.
      destruct (visible_below _ _ _ Hp) as (es & name' & segs & E & Hin & ->).
      injection E as <-. eauto. }
    cbn [walkLoop] in Hwalk. fold (walkLoop (walkDirectory ig []) ig [] pre) in Hwalk.
    destruct (ignores ig (relative [] (join pre name))); [apply IHrest, Hwalk|].
    destruct n as [st data|listing|]; [| |apply IHrest, Hwalk].
    + destruct st as [size|e]; [|discriminate]. cbn [bind] in Hwalk.
      destruct (walkLoop _ ig [] pre rest) as [more|e] eqn:Emore; [|discriminate].
      cbn [bind] in Hwalk. injection Hwalk as <-.
      specialize (IHrest more eq_refl).
      destruct (size <=? MAX_FILE_SIZE); [|exact IHrest].
      constructor; [|exact IHrest]. intros Hp.
      destruct (Hmore more _ eq_refl Hp) as (name' & segs & Hin & E).
      unfold join in E. apply app_inv_head in E. injection E as <- _.
      contradiction.
    + destruct (negb _); [|apply IHrest, Hwalk].
      destruct (walkDirectory ig [] (join pre name) (Dir listing)) as [sub|e] eqn:Esub;
        [|discriminate].
      cbn [bind] in Hwalk.
      destruct (walkLoop _ ig [] pre rest) as [more|e] eqn:Emore; [|discriminate].
      cbn [bind] in Hwalk. injection Hwalk as <-.
      apply NoDup_app.
      * exact (Hn _ _ Hun Esub).
      * exact (IHrest more eq_refl).
      * intros p Hsub Hp.
        apply (walkDirectory_visible ig _ _ _ Esub) in Hsub.
        destruct (visible_below _ _ _ Hsub) as (_ & n1 & s1 & _ & _ & E1).
        destruct (Hmore more p eq_refl Hp) as (name' & segs & Hin & E).
        rewrite E1 in E. unfold join in E. rewrite <- app_assoc in E.
        apply app_inv_head in E. injection E as <- _. contradiction.
Qed.

End WalkOnce.

Lemma NoDup_map_app (b : Path) (rels : list Path) :
  NoDup rels -> NoDup (map (app b) rels).
Proof.
  induction 1 as [|r rels Hr _ IH]; cbn [map]; constructor; [|exact IH].
  intros Hin. apply in_map_iff in Hin. destruct Hin as (r' & E & Hin).
  apply app_inv_head in E. subst. contradiction.
Qed.

(** X9.  In a tree where no directory lists a name twice, the walk reports
    no path twice. *)
Theorem walk_reports_each_file_once ig baseDir d files :
  unique_names d ->
  walkDirectory ig baseDir baseDir d = Ok files -> NoDup files.
Proof.
  intros Hu Hwalk.
  pose proof (walkDirectory_relocate ig baseDir d []) as Hrel.
  rewrite app_nil_r, Hwalk in Hrel.
  destruct (walkDirectory ig [] [] d) as [rels|e] eqn:Erels; [|discriminate].
  injection Hrel as ->.
  apply NoDup_map_app. exact (walkDirectory_NoDup ig d [] rels Hu Erels).
Qed.

Lemma unique_names_sampleTree : unique_names sampleTree.
Proof.
  cbn. repeat split; repeat constructor; cbn; intuition discriminate.
Qed.

Lemma walk_reports_each_file_once_witness :
  NoDup [sampleBase ++ [lit "a.txt"]; sampleBase ++ [lit "b.bin"];
         sampleBase ++ [lit "empty.txt"]].
Proof.
  apply (walk_reports_each_file_once literalIgnore sampleBase sampleTree).
  - exact unique_names_sampleTree.
  - vm_compute. reflexivity.
Defined.

(** The walk of a listing in two parts is the walk of the first part
    followed by the walk of the second. *)
Lemma walkLoop_app walk ig baseDir dir es1 es2 :
  walkLoop walk ig baseDir dir (es1 ++ es2)
  = (try! a <- walkLoop walk ig baseDir dir es1;
     try! b <- walkLoop walk ig baseDir dir es2;
     Ok (a ++ b)).
Proof.
  induction es1 as [|[name n] es1 IH].
  - cbn [app walkLoop bind]. destruct (walkLoop walk ig baseDir dir es2); reflexivity.
  - cbn [app walkLoop]. fold (walkLoop walk ig baseDir dir). rewrite IH.
    destruct (ignores ig (relative baseDir (join dir name))); [reflexivity|].
    destruct n as [st data|listing|]; [| |reflexivity].
    + destruct st as [size|e]; [|reflexivity]. cbn [bind].
      destruct (walkLoop walk ig baseDir dir es1) as [a|e]; [|reflexivity].
      cbn [bind].
      destruct (walkLoop walk ig baseDir dir es2) as [b|e]; [|reflexivity].
      cbn [bind]. destruct (size <=? MAX_FILE_SIZE); reflexivity.
    + destruct (negb _); [|reflexivity].
      destruct (walk (join dir name) (Dir listing)) as [sub|e]; [|reflexivity].
      cbn [bind].
      destruct (walkLoop walk ig baseDir dir es1) as [a|e]; [|reflexivity].
      cbn [bind].
      destruct (walkLoop walk ig baseDir dir es2) as [b|e]; [|reflexivity].
      cbn [bind]. rewrite app_assoc. reflexivity.
Qed.

(** X27.  The walk follows the listing: the files of a directory whose
    listing is [es1 ++ es2] are those found through [es1], then those found
    through [es2], and the walk throws what the first failing part throws. *)
Theorem walk_follows_the_listing ig baseDir dir es1 es2 :
  walkDirectory ig baseDir dir (Dir (Ok (es1 ++ es2)))
  = (try! a <- walkDirectory ig baseDir dir (Dir (Ok es1));
     try! b <- walkDirectory ig baseDir dir (Dir (Ok es2));
     Ok (a ++ b)).
Proof. cbn [walkDirectory]. apply walkLoop_app. Qed.

Lemma walk_returns_witness :
  exists files, walkDirectory literalIgnore sampleBase sampleBase sampleTree = Ok files.
Proof.
  apply (walk_returns literalIgnore sampleBase sampleTree sampleBase (Ok sampleEntries));
    reflexivity.
Defined.

Lemma unreadable_directory_throws_witness :
  exists e', walkDirectory literalIgnore sampleBase sampleBase guardedTree = Throw e'.
Proof.
  apply (unreadable_directory_throws literalIgnore sampleBase sampleBase
           (sampleEntries ++ [(lit "secret", Dir (Throw EACCES))])
           (lit "secret") EACCES).
  - apply in_or_app. right. left. reflexivity.
  - reflexivity.
  - reflexivity.
Defined.

(** ** The tree walk of the bootstrap command *)

Section TreeWalk.

Variable ig : Ignore.

Lemma walkDirectoryForTree_relocate (b : Path) (maxDepth : N) (d : node) :
  forall depth pre,
    walkDirectoryForTree ig b depth maxDepth (b ++ pre) d
    = walkDirectoryForTree ig [] depth maxDepth pre d.
Proof.
  induction d as [| | |entries IH] using node_tree_ind; intros depth pre;
    try reflexivity.
  cbn [walkDirectoryForTree]. destruct (maxDepth <? depth); [reflexivity|].
  induction entries as [|[name n] rest IHrest]; [reflexivity|].
  inversion IH as [|? ? Hn Hrest]; subst. specialize (IHrest Hrest).
  cbn [walkTreeLoop].
  fold (walkTreeLoop (walkDirectoryForTree ig b (depth + 1) maxDepth) ig b (b ++ pre)).
  fold (walkTreeLoop (walkDirectoryForTree ig [] (depth + 1) maxDepth) ig [] pre).
  assert (Hjoin : join (b ++ pre) name = b ++ join pre name)
    by (unfold join; rewrite <- app_assoc; reflexivity).
  rewrite Hjoin, (relative_app b (join pre name)), (relative_nil (join pre name)).
  destruct (ignores ig (render (join pre name))); [exact IHrest|].
  destruct n as [st data|listing|]; [| |exact IHrest].
  - rewrite IHrest. reflexivity.
  - destruct (negb _); [|exact IHrest].
    cbn [snd] in Hn. rewrite Hn, IHrest. reflexivity.
Qed.

(** What an entry of a listing puts in the tree. *)
Lemma walkTreeLoop_In walk pre entries name n :
  In (name, n) entries ->
  ignores ig (render (pre ++ [name])) = false ->
  match n with
  | File _ _ => In (render (pre ++ [name])) (walkTreeLoop walk ig [] pre entries)
  | Dir _ =>
      ignores ig (render (pre ++ [name]) ++ lit "/") = false ->
      In (render (pre ++ [name]) ++ lit "/") (walkTreeLoop walk ig [] pre entries)
      /\ incl (walk (pre ++ [name]) n) (walkTreeLoop walk ig [] pre entries)
  | Other => True
  end.
Proof.
  intros Hin Hign.
  induction entries as [|[name0 n0] rest IH]; [destruct Hin|].
  cbn [walkTreeLoop]. fold (walkTreeLoop walk ig [] pre).
  rewrite (relative_nil (join pre name0)). unfold join.
  destruct Hin as [E|Hin].
  - injection E as -> ->. rewrite Hign.
    destruct n as [st data|listing|]; [left; reflexivity| |exact I].
    intros Hslash. rewrite Hslash. cbn [negb]. split; [left; reflexivity|].
    intros s Hs. right. apply in_app_iff. left. exact Hs.
  - specialize (IH Hin).
    assert (Hweak : forall s, In s (walkTreeLoop walk ig [] pre rest) ->
              In s (if ignores ig (render (pre ++ [name0]))
                    then walkTreeLoop walk ig [] pre rest
                    else match n0 with
                         | File _ _ =>
                             render (pre ++ [name0]) :: walkTreeLoop walk ig [] pre rest
                         | Dir _ =>
                             if negb (ignores ig (render (pre ++ [name0]) ++ lit "/"))
                             then (render (pre ++ [name0]) ++ lit "/")
                                    :: walk (pre ++ [name0]) n0
                                    ++ walkTreeLoop walk ig [] pre rest
                             else walkTreeLoop walk ig [] pre rest
                         | Other => walkTreeLoop walk ig [] pre rest
                         end)).
    { intros s Hs. destruct (ignores ig (render (pre ++ [name0]))); [exact Hs|].
      destruct n0; [right; exact Hs| |exact Hs].
      destruct (negb _); [|exact Hs]. right. apply in_app_iff. right. exact Hs. }
    destruct n as [st data|listing|]; [apply Hweak, IH| |exact I].
    intros Hslash. destruct (IH Hslash) as [H1 H2]. split; [apply Hweak, H1|].
    intros s Hs. apply Hweak, H2, Hs.
Qed.

Lemma visible_listed pre d p :
  visible ig pre d p ->
  forall depth maxDepth,
    depth + N.of_nat (List.length p) <= maxDepth + 1 + N.of_nat (List.length pre) ->
    In (render p) (walkDirectoryForTree ig [] depth maxDepth pre d).
Proof.
  induction 1 as [pre entries name size data Hin Hign Hsize
                 |pre entries name sub p Hin Hign Hslash Hv IH];
    intros depth maxDepth Hdepth.
  - rewrite length_app in Hdepth. cbn [List.length] in Hdepth.
    cbn [walkDirectoryForTree].
    replace (maxDepth <? depth) with false by (symmetry; apply N.ltb_ge; lia).
    exact (walkTreeLoop_In _ pre entries name _ Hin Hign).
  - destruct (visible_not_ignored ig _ _ _ Hv) as (segs & E & Hne & _).
    assert (Hlen : (List.length (pre ++ [name]) < List.length p)%nat).
    { rewrite E, !length_app. destruct segs; [contradiction|]. cbn. lia. }
    rewrite length_app in Hlen. cbn [List.length] in Hlen.
    cbn [walkDirectoryForTree].
    replace (maxDepth <? depth) with false by (symmetry; apply N.ltb_ge; lia).
    assert (Hsub : exists listing, sub = Dir listing)
      by (inversion Hv; eauto).
    destruct Hsub as (listing & ->).
    pose proof (walkTreeLoop_In (walkDirectoryForTree ig [] (depth + 1) maxDepth)
                  pre entries name (Dir listing) Hin Hign Hslash) as [_ Hincl].
    apply Hincl. apply IH. rewrite length_app. cbn [List.length]. lia.
Qed.

End TreeWalk.

(** X12.  The tree of the bootstrap command shows every file that the
    walk of the index command reports, down to the depth limit: a file at
    most [maxDepth + 1] components below the base directory is listed under
    its relative path. *)
Theorem tree_lists_every_indexed_file ig baseDir d files maxDepth segs :
  walkDirectory ig baseDir baseDir d = Ok files ->
  In (baseDir ++ segs) files ->
  len segs <= maxDepth + 1 ->
  In (render segs) (walkDirectoryForTree ig baseDir 0 maxDepth baseDir d).
Proof.
  intros Hwalk Hin Hdepth.
  pose proof (walkDirectory_relocate ig baseDir d []) as Hrel.
  rewrite app_nil_r, Hwalk in Hrel.
  destruct (walkDirectory ig [] [] d) as [rels|e] eqn:Erels; [|discriminate].
  injection Hrel as ->.
  apply in_map_iff in Hin. destruct Hin as (segs' & E & Hin).
  apply app_inv_head in E. subst segs'.
  apply (walkDirectory_visible ig d [] rels Erels) in Hin.
  pose proof (walkDirectoryForTree_relocate ig baseDir maxDepth d 0 []) as Ht.
  rewrite app_nil_r in Ht. rewrite Ht.
  apply (visible_listed ig [] d segs Hin). unfold len in Hdepth. cbn. lia.
Qed.

Section TreeDepth.

Variable ig : Ignore.
Variable maxDepth : N.


End TreeDepth.


Lemma tree_lists_every_indexed_file_witness :
  In (render [lit "src"; lit "lib"; lit "api.ts"])
     (walkDirectoryForTree literalIgnore sampleBase 0 4 sampleBase deepTree).
Proof.
  apply (tree_lists_every_indexed_file literalIgnore sampleBase deepTree
           [sampleBase ++ [lit "src"; lit "lib"; lit "api.ts"];
            sampleBase ++ [lit "a.txt"]]).
  - vm_compute. reflexivity.
  - left. reflexivity.
  - vm_compute. discriminate.
Defined.


(** ** Runs of the [index] command *)

Lemma scanEntries_indexable pkg disk entries :
  scanEntries pkg disk = Ok entries -> Forall (indexable pkg disk) entries.
Proof.
  unfold scanEntries. intros Hscan.
  destruct (loadGitignore pkg disk (cwd disk)) as [ig|e] eqn:Eig; [|discriminate].
  cbn [bind] in Hscan.
  pose proof (walkDirectory_relocate ig (cwd disk) (root disk) []) as Hrel.
  rewrite app_nil_r in Hrel. rewrite Hrel in Hscan.
  destruct (walkDirectory ig [] [] (root disk)) as [rels|e] eqn:Ewalk;
    [|discriminate].
  cbn [relocate bind] in Hscan. injection Hscan as <-.
  apply Forall_forall. intros entry Hin.
  apply readEntries_In in Hin. destruct Hin as (p & Hp & Hadmit).
  apply in_map_iff in Hp. destruct Hp as (segs & <- & Hsegs).
  apply (walkDirectory_visible ig (root disk) [] rels Ewalk) in Hsegs.
  destruct (readFileSync disk (cwd disk ++ segs)) as [buf|e] eqn:Eread;
    [|discriminate].
  exists ig, segs, buf. repeat split; assumption.
Qed.


Section IndexRuns.

Variable ServerState : Type.
Variable serve : ServerState -> Request -> ServerState * Reply.
Variable pkg : IgnorePackage.

(** A run of the command either sends nothing, or uploads batches of the
    entries scanned. *)
Lemma indexAction_sent (w : World ServerState) :
  sent (fst (indexAction serve pkg w)) = sent w
  \/ exists projectId entries found,
       truthy_number (local_projectId w) = Some projectId
       /\ scanEntries pkg (fs w) = Ok entries
       /\ entries <> []
       /\ indexAction serve pkg w
          = match uploadBatches (createApiClient serve) projectId
                    (buildBatches entries) 0
                    (fst (print (ConsoleInfo_found found) w)) with
            | (w', Ok _) =>
                (fst (print (ConsoleSuccess_indexed (len entries)
                               (len (buildBatches entries))) w'),
                 Returned)
            | (w', Throw err) => (fst (handleError err w'), Exit1)
            end.
Proof.
  unfold indexAction, indexBody, bindM, getProjectId, getFs, lift.
  cbv zeta.
  destruct (truthy_number (local_projectId w)) as [projectId|]; [|left; reflexivity].
  destruct (loadGitignore pkg (fs w) (cwd (fs w))) as [ig|e] eqn:Eig;
    [|left; cbn [fst]; rewrite handleError_spec; reflexivity].
  destruct (walkDirectory ig _ _ _) as [filePaths|e] eqn:Ewalk;
    [|left; cbn [fst]; rewrite handleError_spec; reflexivity].
  cbn [print fst].
  destruct (len filePaths =? 0) eqn:E1; [left; reflexivity|].
  destruct (len (readEntries (fs w) (cwd (fs w)) filePaths) =? 0) eqn:E2;
    [left; reflexivity|].
  right. exists projectId, (readEntries (fs w) (cwd (fs w)) filePaths), (len filePaths).
  split; [reflexivity|]. split.
  { unfold scanEntries. rewrite Eig. cbn [bind]. rewrite Ewalk. reflexivity. }
  split.
  - intros E. rewrite E in E2. discriminate.
  - destruct (uploadBatches _ _ _ _ _) as [w' [n|err]]; reflexivity.
Qed.

(** X14.  Whatever the server does, every request that a run of the
    command sends is a POST of a non-empty batch, and every entry in it is
    a file that the walk is to report (not ignored, of at most
    [MAX_FILE_SIZE], below directories that are not ignored) which was read
    and passed the admission filter. *)
Theorem index_sends_only_indexable_files (w : World ServerState) :
  exists reqs,
    sent (fst (indexAction serve pkg w)) = sent w ++ reqs
    /\ Forall (fun req =>
                 method req = POST
                 /\ exists files,
                      payload req = FilesPayload files /\ files <> []
                      /\ Forall (indexable pkg (fs w)) files) reqs.
Proof.
  destruct (indexAction_sent w)
    as [Hsame|(projectId & entries & found & Hpid & Hscan & Hne & Hrun)].
  { exists []. rewrite app_nil_r. split; [exact Hsame|constructor]. }
  rewrite Hrun.
  set (w0 := fst (print (ConsoleInfo_found found) w)).
  destruct (uploadBatches_trace _ serve projectId (buildBatches entries) 0 w0)
    as (reqs & Hsent & Hr).
  destruct (buildBatches_spec entries) as (Hcat & Hnonempty & _).
  pose proof (scanEntries_indexable _ _ _ Hscan) as Hidx.
  assert (Hgood : forall batch, In batch (buildBatches entries) ->
            batch <> [] /\ Forall (indexable pkg (fs w)) batch).
  { intros batch Hin. split.
    - rewrite Forall_forall in Hnonempty. exact (Hnonempty batch Hin).
    - rewrite Forall_forall in *. intros e He. apply Hidx.
      rewrite <- Hcat. apply in_concat. eauto. }
  assert (Hall : forall batches, incl batches (buildBatches entries) ->
            Forall2 (is_upload_of projectId) batches reqs ->
            Forall (fun req =>
                 method req = POST
                 /\ exists files,
                      payload req = FilesPayload files /\ files <> []
                      /\ Forall (indexable pkg (fs w)) files) reqs).
  { intros batches Hincl H2. clear Hsent Hr.
    induction H2 as [|batch req bs rs (Hm & _ & Hp) _ IH]; constructor.
    - split; [exact Hm|]. exists batch. split; [exact Hp|].
      apply Hgood, Hincl. left. reflexivity.
    - apply IH. intros b Hb. apply Hincl. right. exact Hb. }
  exists reqs.
  destruct (uploadBatches _ _ _ _ w0) as [w' [n|err]]; cbn [fst snd] in *.
  - split; [exact Hsent|]. destruct Hr as [H2 _].
    apply (Hall _ (incl_refl _) H2).
  - rewrite handleError_spec. cbn [sent]. split; [exact Hsent|].
    destruct Hr as (done & failed & rest & E & H2).
    apply (Hall (done ++ [failed])); [|exact H2].
    rewrite E. intros b Hb. apply in_app_iff in Hb. apply in_app_iff.
    destruct Hb as [Hb|[<-|[]]]; [left; exact Hb|right; left; reflexivity].
Qed.

(** What a request does to the configuration file, and when. *)
Lemma request_config m u data (w : World ServerState) :
  config_write (fst (request serve m u data w)) = config_write w
  /\ match snd (request serve m u data w) with
     | Ok _ => config_file (fst (request serve m u data w)) = config_file w
     | Throw err =>
         (config_file (fst (request serve m u data w)) = config_file w
          /\ ~ session_expired err)
         \/ (clearAuth Written (config_file w)
              = Ok (config_file (fst (request serve m u data w)))
             /\ session_expired err)
     end.
Proof.
  unfold request. rewrite dispatch_spec.
  destruct (settle _) as [response|error]; [split; reflexivity|].
  unfold onRejected. destruct (string_in _ _).
  { split; [reflexivity|]. left. split; [reflexivity|].
    intros (d & E). discriminate. }
  destruct (status_is _ 401) eqn:E401.
  { unfold clearAuth, saveGlobalConfig. cbn [config_write config_file].
    destruct (config_write w); cbn [fst snd config_write config_file].
    - split; [reflexivity|]. right. split; [reflexivity|]. eexists. reflexivity.
    - split; [reflexivity|]. left. split; [reflexivity|].
      intros (d & E). discriminate. }
  destruct (status_is _ 422).
  { split; [reflexivity|]. left. split; [reflexivity|].
    intros (d & E). discriminate. }
  split; [reflexivity|].
  left. split; [reflexivity|]. intros (d & E). cbn [snd] in E.
  injection E as _ E _.
  destruct (error_response_status error) as [s|]; cbn in *.
  - destruct s; cbn in *; try discriminate. injection E as E. subst.
    discriminate.
  - discriminate.
Qed.



(** An ignore file that is there and cannot be read makes [loadGitignore]
    throw. *)
Lemma loadGitignore_throws disk name e :
  In name [lit ".gitignore"; lit ".memo8ignore"] ->
  existsSync disk (join (cwd disk) name) = true ->
  readFileSync disk (join (cwd disk) name) = Throw e ->
  exists e',
    loadGitignore pkg disk (cwd disk) = Throw e'
    /\ (name = lit ".gitignore" -> e' = e).
Proof.
  intros Hname Hex Hread. unfold loadGitignore.
  destruct Hname as [<-|[<-|[]]].
  - assert (H : forall ig0,
               addFileIfExists pkg disk (join (cwd disk) (lit ".gitignore")) ig0
               = Throw e).
    { intros ig0. unfold addFileIfExists. rewrite Hex. unfold readFileSync_utf8.
      rewrite Hread. reflexivity. }
    rewrite H. exists e. split; [reflexivity|]. intros _. reflexivity.
  - destruct (addFileIfExists pkg disk (join (cwd disk) (lit ".gitignore")) _)
      as [ig|e1]; cbn [bind].
    + unfold addFileIfExists. rewrite Hex. unfold readFileSync_utf8.
      rewrite Hread. cbn [bind]. exists e. split; [reflexivity|].
      intros E. apply (f_equal (@List.length _)) in E. discriminate.
    + exists e1. split; [reflexivity|].
      intros E. apply (f_equal (@List.length _)) in E. discriminate.
Qed.

(** X16.  The two ignore files are read without a guard: when
    [.gitignore] or [.memo8ignore] exists and cannot be read (it is a
    directory, or permission is denied), the command exits with status 1
    and sends nothing; for [.gitignore] the error printed is the one of the
    read. *)
Theorem unreadable_ignore_file_aborts_index (w : World ServerState)
    projectId name e :
  truthy_number (local_projectId w) = Some projectId ->
  In name [lit ".gitignore"; lit ".memo8ignore"] ->
  existsSync (fs w) (join (cwd (fs w)) name) = true ->
  readFileSync (fs w) (join (cwd (fs w)) name) = Throw e ->
  snd (indexAction serve pkg w) = Exit1
  /\ sent (fst (indexAction serve pkg w)) = sent w
  /\ (name = lit ".gitignore" ->
      indexAction serve pkg w = (fst (handleError e w), Exit1)).
Proof.
  intros Hpid Hname Hex Hread.
  destruct (loadGitignore_throws (fs w) name e Hname Hex Hread) as (e' & Hload & He).
  unfold indexAction, indexBody, bindM, getProjectId, getFs, lift. cbv zeta.
  rewrite Hpid, Hload. cbn [fst snd].
  split; [reflexivity|]. split; [rewrite handleError_spec; reflexivity|].
  intros E. rewrite (He E). reflexivity.
Qed.



(** *** A server that accepts every request *)

Hypothesis serve_accepts : forall s req, accepted (snd (serve s req)) = true.




End IndexRuns.


Lemma unreadable_ignore_file_aborts_index_witness :
  snd (indexAction acceptAll literalPackage (sampleWorld tt gitignoreDirTree)) = Exit1
  /\ sent (fst (indexAction acceptAll literalPackage
                            (sampleWorld tt gitignoreDirTree)))
     = sent (sampleWorld tt gitignoreDirTree)
  /\ (lit ".gitignore" = lit ".gitignore" ->
      indexAction acceptAll literalPackage (sampleWorld tt gitignoreDirTree)
      = (fst (handleError EISDIR (sampleWorld tt gitignoreDirTree)), Exit1)).
Proof.
  apply (unreadable_ignore_file_aborts_index unit acceptAll literalPackage
           (sampleWorld tt gitignoreDirTree) 7).
  - reflexivity.
  - left. reflexivity.
  - reflexivity.
  - reflexivity.
Defined.

(** ** The client, the [logout] command and the configuration file *)

Lemma or_string_nonempty a b : b <> EmptyString -> or_string a b <> EmptyString.
Proof.
  intros Hb. unfold or_string, truthy_string.
  destruct a as [[|c a]|]; try exact Hb. discriminate.
Qed.

Section CommandFacts.

Variable ServerState : Type.
Variable serve : ServerState -> Request -> ServerState * Reply.

(** X18.  A request through the client throws only when the reply did not
    resolve the promise, and what it throws tells the caller what happened:
    a message that is never empty, and the status of the reply, 0 when
    there was no reply.  For status 422 it is a [ValidationError].  (After
    a 401 this supposes that the configuration file can be written.) *)
Theorem request_error_shape m u data (w w' : World ServerState) err :
  request serve m u data w = (w', Throw err) ->
  (reply_status (snd (serve (server w) (outgoing m u data w))) = 401 ->
   config_write w = Written) ->
  let reply := snd (serve (server w) (outgoing m u data w)) in
  accepted reply = false
  /\ message_of err <> EmptyString
  /\ (if reply_status reply =? 422
      then exists message errors, err = ValidationError message errors
      else exists message,
             err = ApiError message (reply_status reply) (reply_data reply)).
Proof.
  unfold request. rewrite dispatch_spec. cbv zeta.
  destruct (snd (serve (server w) (outgoing m u data w))) as [status body|code msg];
    cbn [settle accepted reply_status reply_data].
  - destruct (validateStatus status) eqn:Ev; [discriminate|].
    unfold onRejected.
    assert (Hcode : string_in
                      (error_code (BadStatus status body (status_message status)))
                      ["ECONNREFUSED"; "ENOTFOUND"]%string = false).
    { cbn [error_code]. destruct (status / 100 =? 4); [reflexivity|].
      destruct (status / 100 =? 5); reflexivity. }
    rewrite Hcode. cbn [error_response_status error_response_data status_is].
    destruct (status =? 401) eqn:E401.
    + apply N.eqb_eq in E401. subst status. intros Hreq Hw.
      unfold clearAuth, saveGlobalConfig in Hreq. cbn [config_write] in Hreq.
      rewrite (Hw eq_refl) in Hreq. injection Hreq as _ <-.
      split; [reflexivity|]. split; [discriminate|]. cbn. eexists. reflexivity.
    + destruct (status =? 422) eqn:E422; intros [= _ <-] _;
        (split; [reflexivity|]); cbn [message_of].
      * split; [apply or_string_nonempty; discriminate|]. eauto.
      * split; [repeat apply or_string_nonempty; discriminate|].
        eexists. f_equal. unfold truthy_number.
        destruct status; reflexivity.
  - unfold onRejected. cbn [error_code].
    destruct (string_in code _); intros [= _ <-] _; (split; [reflexivity|]).
    + split; [discriminate|]. cbn. eexists. reflexivity.
    + cbn [error_response_status error_response_data status_is message_of].
      split; [repeat apply or_string_nonempty; discriminate|].
      cbn. eexists. reflexivity.
Qed.

(** X19.  After a 401, with a configuration file that can be written,
    the file gives no credentials: the next request carries no [X-Team-Id],
    and as [Authorization] the token of the environment variable if there
    is one, which the 401 did not remove, and nothing otherwise. *)
Theorem unauthorized_drops_credentials m u data (w : World ServerState) s' body
    m' u' data' :
  serve (server w) (outgoing m u data w) = (s', HttpResponse 401 body) ->
  config_write w = Written ->
  let w' := fst (request serve m u data w) in
  authorization (outgoing m' u' data' w') = truthy_string (env_token w)
  /\ x_team_id (outgoing m' u' data' w') = None.
Proof.
  intros Hserve Hw. unfold request. rewrite dispatch_spec, Hserve. cbn.
  rewrite Hw. cbn.
  unfold getToken. cbn. destruct (truthy_string (env_token w)); split; reflexivity.
Qed.

Lemma clearAuthNow_written (w : World ServerState) :
  config_write w = Written ->
  exists file,
    clearAuth Written (config_file w) = Ok file
    /\ token (loadGlobalConfig file) = None
    /\ clearAuthNow w
       = (mkWorld (fs w) (local_projectId w) (server w) (sent w)
                  file (config_write w) (env_token w) (console w),
          Ok tt).
Proof.
  intros Hw. unfold clearAuthNow. rewrite Hw. eexists.
  split; [reflexivity|]. split; reflexivity.
Qed.

(** X20.  With a configuration file that can be written, [logout] always
    clears the local credentials: whatever the server replies, and also when
    it cannot be reached, the file afterwards is the one [clearAuth] makes
    of the file before; exactly one request was sent, the POST of [/logout]
    with the credentials of before; and no error leaves the command. *)
Theorem logout_always_clears_auth (w : World ServerState) :
  config_write w = Written ->
  clearAuth Written (config_file w)
    = Ok (config_file (fst (logoutAction serve w)))
  /\ token (loadGlobalConfig (config_file (fst (logoutAction serve w)))) = None
  /\ sent (fst (logoutAction serve w))
     = sent w ++ [outgoing POST (OtherUrl "/logout") NoPayload w]
  /\ forall err, snd (logoutAction serve w) <> Uncaught err.
Proof.
  intros Hw. unfold logoutAction, bindM. cbn [post createApiClient].
  destruct (request_config _ serve POST (OtherUrl "/logout") NoPayload w)
    as [Hcw Hc].
  pose proof (request_sent _ serve POST (OtherUrl "/logout") NoPayload w) as Hs.
  assert (Hc' : clearAuth Written
                  (config_file (fst (request serve POST (OtherUrl "/logout")
                                             NoPayload w)))
                = clearAuth Written (config_file w)).
  { destruct (snd (request serve POST (OtherUrl "/logout") NoPayload w)).
    - rewrite Hc. reflexivity.
    - destruct Hc as [[-> _]|[Hc _]]; [reflexivity|].
      unfold clearAuth, saveGlobalConfig in Hc. injection Hc as <-. reflexivity. }
  rewrite Hw in Hcw.
  destruct (request serve POST _ _ w) as [w1 [r|err]]; cbn [fst] in *;
    destruct (clearAuthNow_written w1 Hcw) as (file & Hfile & Htoken & ->);
    rewrite Hc' in Hfile.
  - cbn [fst snd config_file sent]. repeat split; try assumption. discriminate.
  - destruct (string_includes _ _); cbn [fst snd]; rewrite ?handleError_spec;
      cbn [config_file sent]; repeat split; try assumption; discriminate.
Qed.




End CommandFacts.

Lemma request_error_shape_witness :
  accepted (HttpResponse 413 None) = false
  /\ message_of (ApiError "Request failed with status code 413" 413 None)
     <> EmptyString
  /\ exists message,
       ApiError "Request failed with status code 413" 413 None
       = ApiError message 413 None.
Proof.
  apply (request_error_shape unit (rejectLargerThan 1) POST (CodebaseIndexUrl 7)
           (FilesPayload [entryA; entryB]) (sampleWorld tt sampleTree)
           (worldOf tt sampleTree [sampleUpload [entryA; entryB]]
                    (Some sampleConfig) [])
           (ApiError "Request failed with status code 413" 413 None)).
  - reflexivity.
  - intros _. reflexivity.
Defined.

Lemma unauthorized_drops_credentials_witness :
  authorization
    (outgoing POST (CodebaseIndexUrl 7) (FilesPayload [entryB])
       (fst (request (answerAll 401) POST (CodebaseIndexUrl 7)
                     (FilesPayload [entryA]) (sampleWorld tt sampleTree))))
  = None
  /\ x_team_id
       (outgoing POST (CodebaseIndexUrl 7) (FilesPayload [entryB])
          (fst (request (answerAll 401) POST (CodebaseIndexUrl 7)
                        (FilesPayload [entryA]) (sampleWorld tt sampleTree))))
     = None.
Proof.
  apply (unauthorized_drops_credentials unit (answerAll 401) POST
           (CodebaseIndexUrl 7) (FilesPayload [entryA])
           (sampleWorld tt sampleTree) tt None
           POST (CodebaseIndexUrl 7) (FilesPayload [entryB])).
  - reflexivity.
  - reflexivity.
Defined.

Lemma logout_always_clears_auth_witness :
  clearAuth Written (config_file (sampleWorld tt sampleTree))
    = Ok (config_file (fst (logoutAction unreachable (sampleWorld tt sampleTree))))
  /\ token (loadGlobalConfig
              (config_file (fst (logoutAction unreachable
                                              (sampleWorld tt sampleTree)))))
     = None
  /\ sent (fst (logoutAction unreachable (sampleWorld tt sampleTree)))
     = sent (sampleWorld tt sampleTree)
       ++ [outgoing POST (OtherUrl "/logout") NoPayload (sampleWorld tt sampleTree)]
  /\ forall err,
       snd (logoutAction unreachable (sampleWorld tt sampleTree)) <> Uncaught err.
Proof.
  apply (logout_always_clears_auth unit unreachable (sampleWorld tt sampleTree)).
  reflexivity.
Defined.



(** X22.  After a [setAuth] that could write the file, the token read back
    is the one written, unless the environment variable overrides it; the
    user is the one written; the API URL is kept; and the team id is the one
    given, or, when none is given, the one the file already had. *)
Theorem setAuth_then_getToken env newToken newUser newTeamId file :
  exists file',
    setAuth Written newToken newUser newTeamId file = Ok file'
    /\ getToken env file'
       = match truthy_string env with
         | Some t => Some t
         | None => truthy_string (Some newToken)
         end
    /\ getTeamId file'
       = match truthy_number newTeamId with
         | Some t => Some t
         | None => getTeamId file
         end
    /\ user (loadGlobalConfig file') = Some newUser
    /\ apiUrl (loadGlobalConfig file') = apiUrl (loadGlobalConfig file).
Proof.
  unfold setAuth, getToken, getTeamId, saveGlobalConfig.
  eexists. split; [reflexivity|].
  destruct (truthy_number newTeamId) as [t|] eqn:Et; cbn.
  - repeat split. destruct newTeamId as [[|p]|]; try discriminate.
    injection Et as <-. reflexivity.
  - repeat split.
Qed.

(** X23.  [clearAuth] forgets the session and nothing else: after it there
    is no token and no team id to send, whatever [setAuth] and [setTeamId]
    wrote before, and the file is the one that clearing the original file
    gives, API URL included. *)
Theorem clearAuth_forgets_session newToken newUser newTeamId team file :
  exists cleared,
    clearAuth Written file = Ok cleared
    /\ (try! f <- setAuth Written newToken newUser newTeamId file;
        clearAuth Written f) = Ok cleared
    /\ (try! f <- setTeamId Written team file; clearAuth Written f) = Ok cleared
    /\ (try! f <- setTeamId Written team file; Ok (getTeamId f))
       = Ok (truthy_number (Some team))
    /\ getToken None cleared = None
    /\ getTeamId cleared = None
    /\ apiUrl (loadGlobalConfig cleared) = apiUrl (loadGlobalConfig file).
Proof.
  unfold setAuth, setTeamId, clearAuth, saveGlobalConfig. eexists.
  split; [reflexivity|].
  destruct (truthy_number newTeamId); repeat split.
Qed.

(** ** The local configuration file *)

Section LocalConfigFacts.

Variable JSON_parse : jsstring -> result JsError LocalConfig.
Variable whole : node.

Lemma loadLocalConfig_snoc dir name :
  loadLocalConfig JSON_parse whole (dir ++ [name])
  = if existsSync (fromRoot whole) (join (dir ++ [name]) LOCAL_CONFIG_FILE)
    then configAt JSON_parse whole (dir ++ [name])
    else loadLocalConfig JSON_parse whole dir.
Proof.
  unfold loadLocalConfig. rewrite rev_app_distr. cbn [rev app loadLocalLoop].
  rewrite rev_involutive. reflexivity.
Qed.

(** X24.  The nearest configuration file wins.  When [.memo8.json] exists
    in the directory [anc], which is not the root, and in no directory
    between [anc] and the working directory, [loadLocalConfig] gives what
    that file holds, and the empty configuration when that file cannot be
    read or parsed, whatever the directories above [anc] hold. *)
Theorem nearest_local_config_wins anc below :
  anc <> [] ->
  existsSync (fromRoot whole) (join anc LOCAL_CONFIG_FILE) = true ->
  (forall q r, below = q ++ r -> q <> [] ->
     existsSync (fromRoot whole) (join (anc ++ q) LOCAL_CONFIG_FILE) = false) ->
  loadLocalConfig JSON_parse whole (anc ++ below) = configAt JSON_parse whole anc.
Proof.
  intros Hanc Hex. induction below as [|name below IH] using rev_ind; intros Hnone.
  - rewrite app_nil_r. destruct (exists_last Hanc) as (anc' & last & ->).
    rewrite loadLocalConfig_snoc, Hex. reflexivity.
  - rewrite app_assoc, loadLocalConfig_snoc, <- app_assoc.
    rewrite (Hnone (below ++ [name]) []); [| rewrite app_nil_r; reflexivity
                                           | intros E; destruct below; discriminate].
    apply IH. intros q r E Hq. apply (Hnone q (r ++ [name])); [|exact Hq].
    rewrite E, app_assoc. reflexivity.
Qed.

(** X25.  The root directory is not searched.  When no directory from
    the working directory up to, and not including, the root has a
    [.memo8.json], the configuration is empty and there is no project id,
    also when the root directory has such a file. *)
Theorem root_local_config_is_not_read dir :
  (forall q r, dir = q ++ r -> q <> [] ->
     existsSync (fromRoot whole) (join q LOCAL_CONFIG_FILE) = false) ->
  loadLocalConfig JSON_parse whole dir = mkLocalConfig None None
  /\ getProjectIdFrom JSON_parse whole dir = None.
Proof.
  intros Hnone.
  assert (H : loadLocalConfig JSON_parse whole dir = mkLocalConfig None None).
  { induction dir as [|name dir IH] using rev_ind; [reflexivity|].
    rewrite loadLocalConfig_snoc.
    rewrite (Hnone (dir ++ [name]) []); [| rewrite app_nil_r; reflexivity
                                         | intros E; destruct dir; discriminate].
    apply IH. intros q r E Hq. apply (Hnone q (r ++ [name])); [|exact Hq].
    rewrite E, app_assoc. reflexivity. }
  split; [exact H|]. unfold getProjectIdFrom. rewrite H. reflexivity.
Qed.

End LocalConfigFacts.

Lemma nearest_local_config_wins_witness :
  loadLocalConfig digitParse sampleDisk ([lit "home"; lit "dev"] ++ [lit "project"])
  = configAt digitParse sampleDisk [lit "home"; lit "dev"].
Proof.
  apply (nearest_local_config_wins digitParse sampleDisk
           [lit "home"; lit "dev"] [lit "project"]).
  - discriminate.
  - reflexivity.
  - intros q r E Hq. destruct q as [|q0 [|q1 q]]; [contradiction| |].
    + injection E as <- _. reflexivity.
    + discriminate.
Defined.

(** The project of [sampleBase] is number 7, from the file one level up;
    the file of the root directory, which says 9, is not read from [/home]. *)
Example local_config_sample :
  getProjectIdFrom digitParse sampleDisk sampleBase = Some 7
  /\ getProjectIdFrom digitParse sampleDisk [lit "home"] = None.
Proof. split; reflexivity. Qed.

Lemma root_local_config_is_not_read_witness :
  loadLocalConfig digitParse sampleDisk [lit "home"] = mkLocalConfig None None
  /\ getProjectIdFrom digitParse sampleDisk [lit "home"] = None.
Proof.
  apply (root_local_config_is_not_read digitParse sampleDisk [lit "home"]).
  intros q r E Hq. destruct q as [|q0 [|q1 q]]; [contradiction| |].
  - injection E as <- _. reflexivity.
  - discriminate.
Defined.

(** ** The rows of [codebase search] *)

(** X26.  A row of the search table has five cells.  The path cell is at
    most 40 code units long and always ends with the end of the path (its
    last 37 units when the path is cut); the summary cell is at most 30
    long; and neither the language nor the summary cell is ever empty. *)
Theorem search_row_cells_bounded (f : SearchTable.CodebaseFile) :
  exists idCell pathCell languageCell summaryCell,
    SearchTable.searchRow f
    = [idCell; pathCell; languageCell; SearchTable.fileType f; summaryCell]
    /\ strlen pathCell <= 40
    /\ (exists dropped, SearchTable.filePath f = dropped ++ skipn (List.length pathCell - 37) pathCell)
    /\ 1 <= strlen languageCell
    /\ 1 <= strlen summaryCell <= 30.
Proof.
  unfold SearchTable.searchRow. do 4 eexists. split; [reflexivity|].
  split; [|split; [|split]].
  - destruct (N.ltb_spec 40 (strlen (SearchTable.filePath f))) as [H|H]; [|exact H].
    unfold strlen, SearchTable.slice_last in *. rewrite length_app, length_skipn.
    cbn. lia.
  - destruct (N.ltb_spec 40 (strlen (SearchTable.filePath f))) as [H|H].
    + unfold strlen, SearchTable.slice_last in *.
      exists (firstn (List.length (SearchTable.filePath f) - 37) (SearchTable.filePath f)).
      rewrite length_app, length_skipn. cbn [lit List.length app].
      replace (3 + (List.length (SearchTable.filePath f)
                    - (List.length (SearchTable.filePath f) - 37)) - 37)%nat
        with 3%nat by lia.
      cbn [skipn]. symmetry. apply firstn_skipn.
    + exists (firstn (List.length (SearchTable.filePath f) - 37) (SearchTable.filePath f)).
      symmetry. apply firstn_skipn.
  - unfold SearchTable.or_else, strlen.
    destruct (SearchTable.language f) as [[|c s]|]; cbn; lia.
  - destruct (SearchTable.contentSummary f) as [[|c s]|]; try (cbn; lia).
    destruct (N.ltb_spec 30 (strlen (c :: s))) as [H|H].
    + unfold strlen, SearchTable.substring0 in *. rewrite length_app, length_firstn.
      cbn [List.length lit] in *. lia.
    + unfold strlen in *. cbn [List.length] in *. lia.
Qed.
